(** * Revenu disponible: Quebec income tax calculator and test-case generator

    A shallow embedding of the two Python programs of the project notes
    ([QuebecIncomeTaxCalculator] and [generate_test_cases]) together with the
    properties the design document states about them.

    Numbers: Python's [int] and [float] amounts are embedded as exact
    rationals ([Q]); [float('inf')] is the extra point [PosInf].  All results
    about amounts are therefore results of exact arithmetic, compared with
    [Qeq] ([==]). *)

From Stdlib Require Import ZArith QArith Qminmax Qabs Lqa Lia List Ascii String Bool.
From stdpp Require Import gmap strings pretty.
Import ListNotations.

(** ** Python exceptions and results *)

Module Py.

Inductive exn : Type :=
| ValueError (msg : string)
| AttributeError (attr : string)
| IndexError (msg : string).

Inductive result (A : Type) : Type :=
| Ok (a : A)
| Raise (e : exn).
Arguments Ok {A} a.
Arguments Raise {A} e.

Definition is_ok {A} (r : result A) : bool :=
  match r with Ok _ => true | Raise _ => false end.

End Py.
Import Py.

(** ** The income tax calculator *)

Module QuebecTax.

Local Open Scope Q_scope.

(** A bracket bound: a number or [float('inf')]. *)
Inductive bound : Type :=
| Fin (q : Q)
| PosInf.

(** One entry [{"min": _, "max": _, "rate": _}] of a bracket table. *)
Record bracket : Type := Bracket { bmin : Q; bmax : bound; rate : Q }.

(** The attributes of a calculator object; an attribute that has not been
    assigned yet is [None]. *)
Record calculator : Type := Calculator {
  year : option Z;
  tax_brackets : option (list bracket)
}.

Definition fresh : calculator := Calculator None None.

(** Methods run on [self]: they return a value or raise, and hand back the
    object as they leave it. *)
Definition method (A : Type) : Type := calculator -> result A * calculator.

Definition ret {A} (a : A) : method A := fun self => (Ok a, self).

Definition raise {A} (e : exn) : method A := fun self => (Raise e, self).

Definition bind {A B} (m : method A) (k : A -> method B) : method B :=
  fun self =>
    match m self with
    | (Ok a, self') => k a self'
    | (Raise e, self') => (Raise e, self')
    end.

Notation "x <- m ;; k" := (bind m (fun x => k))
  (at level 100, m at next level, right associativity).

Notation "m ;;; k" := (bind m (fun _ => k))
  (at level 100, right associativity).

Definition eval {A} (m : method A) (self : calculator) : result A := fst (m self).

Definition exec {A} (m : method A) (self : calculator) : calculator := snd (m self).

(** [self.year], [self.tax_brackets] and the two assignments of [__init__]. *)
Definition self_year : method Z := fun self =>
  match year self with
  | Some y => (Ok y, self)
  | None => (Raise (AttributeError "year"), self)
  end.

Definition self_tax_brackets : method (list bracket) := fun self =>
  match tax_brackets self with
  | Some bs => (Ok bs, self)
  | None => (Raise (AttributeError "tax_brackets"), self)
  end.

Definition set_year (y : Z) : method unit := fun self =>
  (Ok tt, Calculator (Some y) (tax_brackets self)).

Definition set_tax_brackets (bs : list bracket) : method unit := fun self =>
  (Ok tt, Calculator (year self) (Some bs)).

(** Comparisons and [min] as Python evaluates them. *)
Definition Qltb (x y : Q) : bool := negb (Qle_bool y x).

Definition py_min (x : Q) (m : bound) : Q :=
  match m with
  | PosInf => x
  | Fin u => if Qltb u x then u else x
  end.

Definition year_not_supported : exn := ValueError "Year not supported".

Definition get_tax_brackets : method (list bracket) :=
  y <- self_year ;;
  if (y =? 2023)%Z then
    ret [ Bracket 0 (Fin 46295) 0.15;
          Bracket 46295 (Fin 92580) 0.20;
          Bracket 92580 (Fin 112655) 0.24;
          Bracket 112655 PosInf 0.2575 ]
  else if (y =? 2024)%Z then
    ret [ Bracket 0 (Fin 47000) 0.15;
          Bracket 47000 (Fin 94000) 0.20;
          Bracket 94000 (Fin 114000) 0.24;
          Bracket 114000 PosInf 0.2575 ]
  else raise year_not_supported.

Definition __init__ (y : Z) : method unit :=
  set_year y ;;;
  bs <- get_tax_brackets ;;
  set_tax_brackets bs.

(** [QuebecIncomeTaxCalculator(year)]: a fresh object run through
    [__init__]; an exception in [__init__] leaves no object. *)
Definition QuebecIncomeTaxCalculator (y : Z) : result calculator :=
  match __init__ y fresh with
  | (Ok _, self) => Ok self
  | (Raise e, _) => Raise e
  end.

(** The body of the [for bracket in self.tax_brackets] loop, on the running
    [tax]. *)
Definition tax_step (income : Q) (tax : Q) (b : bracket) : Q :=
  if Qltb (bmin b) income then
    let taxable_amount := py_min income (bmax b) - bmin b in
    tax + taxable_amount * rate b
  else tax.

Definition calculate_tax (income : Q) : method Q :=
  bs <- self_tax_brackets ;;
  ret (fold_left (tax_step income) bs 0).

Definition calculate_tax_reduction (income : Q) : method Q :=
  y <- self_year ;;
  params <- (if (y =? 2023)%Z then ret (0.165, 16143)
             else if (y =? 2024)%Z then ret (0.165, 16400)
             else raise year_not_supported) ;;
  let '(reduction_rate, reduction_threshold) := params in
  if Qle_bool income reduction_threshold then
    ret (income * reduction_rate)
  else
    ret (reduction_threshold * reduction_rate).

Definition calculate_total_tax (income : Q) : method Q :=
  tax <- calculate_tax income ;;
  reduction <- calculate_tax_reduction income ;;
  ret (tax - reduction).

(** *** The design document's rules, in its own words *)

(** [min(x, upper)] where [upper] may be unbounded. *)
Definition ext_min (x : Q) (m : bound) : Q :=
  match m with
  | PosInf => x
  | Fin u => Qmin x u
  end.

(** Progressive bracket evaluation: the sum of
    [rate * (min(x, upper) - lower)] over the brackets whose lower bound is
    below [x]. *)
Definition progressive_bracket_sum (bs : list bracket) (x : Q) : Q :=
  fold_right Qplus 0
    (List.map (fun b => rate b * (ext_min x (bmax b) - bmin b))
              (List.filter (fun b => Qltb (bmin b) x) bs)).

(** Phase-out formula:
    [max(0, base_amount - reduction_rate * max(0, income - threshold))]. *)
Definition phase_out (base_amount reduction_rate threshold income : Q) : Q :=
  Qmax 0 (base_amount - reduction_rate * Qmax 0 (income - threshold)).

(** Shape of a bracket table: lower bounds increase, a bracket ends no later
    than the next one starts, and the last bracket has no upper bound. *)
Fixpoint ordered (bs : list bracket) : Prop :=
  match bs with
  | b :: ((b' :: _) as tl) => bmin b < bmin b' /\ ordered tl
  | _ => True
  end.

Fixpoint non_overlapping (bs : list bracket) : Prop :=
  match bs with
  | b :: ((b' :: _) as tl) =>
      match bmax b with
      | Fin u => bmin b <= u /\ u <= bmin b'
      | PosInf => False
      end /\ non_overlapping tl
  | _ => True
  end.

Definition top_unbounded (bs : list bracket) : Prop :=
  match last bs with
  | Some b => bmax b = PosInf
  | None => False
  end.

(** [x <= m] for a possibly unbounded [m]. *)
Definition le_bound (x : Q) (m : bound) : Prop :=
  match m with
  | PosInf => True
  | Fin u => x <= u
  end.

Definition supported (y : Z) : Prop := y = 2023%Z \/ y = 2024%Z.

(** The year's reduction threshold, as written in
    [calculate_tax_reduction]. *)
Definition reduction_threshold (y : Z) : Q :=
  if (y =? 2023)%Z then 16143 else 16400.

(** Results that agree up to the representation of the amount. *)
Definition result_eq (r r' : result Q) : Prop :=
  match r, r' with
  | Ok a, Ok a' => a == a'
  | Raise e, Raise e' => e = e'
  | _, _ => False
  end.

(** The calculator a year builds, for statements about concrete years. *)
Definition built (y : Z) : calculator :=
  match QuebecIncomeTaxCalculator y with
  | Ok c => c
  | Raise _ => fresh
  end.

(** *** The tax reduction *)

(** The phase-out reading of the reduction: some base amount makes
    [calculate_tax_reduction] the formula
    [max(0, base - rate * max(0, income - threshold))] on every
    non-negative income. *)
Definition follows_phase_out (y : Z) (c : calculator) : Prop :=
  exists base_amount, forall income, 0 <= income ->
    exists r, eval (calculate_tax_reduction income) c = Ok r /\
              r == phase_out base_amount 0.165 (reduction_threshold y) income.

(** *** Shape of the tax as a function of income *)

Definition bracket_ok (b : bracket) : Prop :=
  0 <= rate b /\ le_bound (bmin b) (bmax b).

Definition sum_rates (bs : list bracket) : Q :=
  fold_right Qplus 0 (List.map rate bs).

Definition non_decreasing (f : Q -> Q) : Prop :=
  forall x x', 0 <= x -> x <= x' -> f x <= f x'.

Definition continuous_at (f : Q -> Q) (x0 : Q) : Prop :=
  forall eps, 0 < eps ->
    exists delta, 0 < delta /\
      forall x, 0 <= x -> Qabs (x - x0) < delta -> Qabs (f x - f x0) < eps.

(** On each bracket the function is the line through its value at the lower
    bound with the bracket's rate as slope, up to and including the upper
    bound. *)
Definition linear_on_brackets (bs : list bracket) (f : Q -> Q) : Prop :=
  Forall (fun b => forall x, bmin b <= x -> le_bound x (bmax b) ->
                     f x == f (bmin b) + rate b * (x - bmin b)) bs.

(** *** Determinism and absence of side effects *)

(** A method that hands [self] back as it received it. *)
Definition read_only {A} (m : method A) : Prop :=
  forall self, exec m self = self.

(** A method of one amount is deterministic and side-effect-free when a
    call leaves the object unchanged, a second call on the object the first
    one left returns the identical result, and equal amounts given in two
    representations yield equal results. *)
Definition deterministic_pure (m : Q -> method Q) : Prop :=
  forall self x x', x == x' ->
    exec (m x) self = self /\
    eval (m x) (exec (m x) self) = eval (m x) self /\
    result_eq (eval (m x) self) (eval (m x') (exec (m x) self)).

End QuebecTax.

(** ** The test-case generator *)

Module TestCases.

Local Open Scope Z_scope.

(** A value stored in a case: the cases hold strings and integers. *)
Inductive value : Type :=
| VStr (s : string)
| VInt (n : Z).

(** The part of Python's [random] module the generator uses: a generator
    state, [_randbelow(n)], which returns an index below [n] and advances
    the state, and [seed(a)], which sets the state from [a]. *)
Class RandomSource : Type := {
  rng : Type;
  randbelow : nat -> rng -> nat * rng;
  seed : Z -> rng;
  randbelow_lt : forall (n : nat) (s : rng),
    (0 < n)%nat -> (fst (randbelow n s) < n)%nat
}.

(** *** String helpers *)

(** [c.lower()] on one byte: the ASCII capitals move to lower case, every
    other byte (and so every byte of a non-ASCII letter) is kept. *)
Definition lower_ascii (c : ascii) : ascii :=
  let n := nat_of_ascii c in
  if ((65 <=? n) && (n <=? 90))%nat then ascii_of_nat (n + 32) else c.

Fixpoint lower (s : string) : string :=
  match s with
  | EmptyString => EmptyString
  | String c s' => String (lower_ascii c) (lower s')
  end.

(** [needle in hay] on strings. *)
Fixpoint contains (needle hay : string) : bool :=
  String.prefix needle hay ||
  match hay with
  | EmptyString => false
  | String _ hay' => contains needle hay'
  end.

(** [range(lo, hi)]. *)
Definition range (lo hi : Z) : list Z :=
  List.map (fun k => lo + Z.of_nat k) (seq 0 (Z.to_nat (hi - lo))).

Section Generator.

Context `{RandomSource}.

(** Code that draws random numbers: it threads the generator state and
    may raise. *)
Definition gen (A : Type) : Type := rng -> result (A * rng).

Definition gen_ret {A} (a : A) : gen A := fun s => Ok (a, s).

Definition gen_bind {A B} (m : gen A) (k : A -> gen B) : gen B :=
  fun s =>
    match m s with
    | Ok (a, s') => k a s'
    | Raise e => Raise e
    end.

Notation "x <- m ;; k" := (gen_bind m (fun x => k))
  (at level 100, m at next level, right associativity).

(** [random.choice(seq)]. *)
Definition choice {A} (l : list A) : gen A := fun s =>
  match l with
  | [] => Raise (IndexError "Cannot choose from an empty sequence")
  | _ =>
      let (i, s') := randbelow (length l) s in
      match nth_error l i with
      | Some a => Ok (a, s')
      | None => Raise (IndexError "list index out of range")
      end
  end.

(** [random.seed(a)]. *)
Definition random_seed (a : Z) : gen unit := fun _ => Ok (tt, seed a).

(** [for x in xs: acc = body(x, acc)]. *)
Fixpoint for_each {A S} (xs : list A) (body : A -> S -> gen S) (acc : S)
  : gen S :=
  match xs with
  | [] => gen_ret acc
  | x :: xs' => acc' <- body x acc ;; for_each xs' body acc'
  end.

Definition situations : list string :=
  [ "Personne vivant seule";
    "Famille monoparentale";
    "Couple";
    "Retraité vivant seul";
    "Couple de retraités" ].

Definition revenus : list Z := [0; 15000; 30000; 45000; 60000; 75000; 90000].

Definition ages_travailleur : list Z := [25; 35; 45; 55].

Definition ages_retraite : list Z := [65; 75; 85].

Definition ages_enfant : list Z := [2; 5; 10; 15].

Definition nb_enfants : list Z := range 0 4.

Definition frais_garde : list Z := [0; 8000; 15000].

Definition types_garde : list string := ["Subventionnée"; "Non subventionnée"].

(** The keys [f'age_enfant{i}'], [f'frais{i}'] and [f'type_garde{i}']. *)
Definition age_enfant_key (i : Z) : string := "age_enfant" +:+ pretty i.

Definition frais_key (i : Z) : string := "frais" +:+ pretty i.

Definition type_garde_key (i : Z) : string := "type_garde" +:+ pretty i.

(** The body of the loop over the children, on the case being filled. *)
Definition child_attributes (i : Z) (case : gmap string value)
  : gen (gmap string value) :=
  age_enfant <- choice ages_enfant ;;
  let case := <[age_enfant_key i := VInt age_enfant]> case in
  if age_enfant <=? 5 then
    frais <- choice frais_garde ;;
    let case := <[frais_key i := VInt frais]> case in
    type_garde <- choice types_garde ;;
    gen_ret (<[type_garde_key i := VStr type_garde]> case)
  else
    let case := <[frais_key i := VInt 0]> case in
    gen_ret (<[type_garde_key i := VStr "Subventionnée"]> case).

(** The three flags computed from the situation drawn. *)
Definition est_retraite (situation : string) : bool :=
  contains "retraité" (lower situation).

Definition est_couple (situation : string) : bool :=
  contains "Couple" situation.

Definition peut_avoir_enfants (situation : string) : bool :=
  negb (est_retraite situation) &&
  negb (String.eqb situation "Personne vivant seule").

(** One turn of the main loop: the case it appends to [test_cases].  The
    children loop runs to the [nb_enfants] just stored in the case. *)
Definition generate_case : gen (gmap string value) :=
  situation <- choice situations ;;
  revenu1 <- choice revenus ;;
  age1 <- choice (if est_retraite situation
                  then ages_retraite else ages_travailleur) ;;
  revenu2 <- (if est_couple situation then choice revenus else gen_ret 0) ;;
  age2 <- (if est_couple situation
           then choice (if est_retraite situation
                        then ages_retraite else ages_travailleur)
           else gen_ret 0) ;;
  let case : gmap string value :=
    <["nb_enfants" := VInt 0]>
    (<["age2" := VInt age2]>
    (<["revenu2" := VInt revenu2]>
    (<["age1" := VInt age1]>
    (<["revenu1" := VInt revenu1]>
    (<["situation" := VStr situation]> ∅))))) in
  if peut_avoir_enfants situation then
    n <- choice nb_enfants ;;
    let case := <["nb_enfants" := VInt n]> case in
    for_each (range 1 (n + 1)) child_attributes case
  else gen_ret case.

Definition generate_test_cases (nobs : Z) : gen (list (gmap string value)) :=
  for_each (range 0 nobs)
    (fun _ test_cases =>
       case <- generate_case ;;
       gen_ret (test_cases ++ [case]))
    [].

(** A run of the generator after [random.seed(a)]. *)
Definition seeded_run (a : Z) (nobs : Z) : gen (list (gmap string value)) :=
  _ <- random_seed a ;; generate_test_cases nobs.

End Generator.

(** *** Keys of a case *)

Definition child_keys (i : Z) : list string :=
  [age_enfant_key i; frais_key i; type_garde_key i].

Definition base_keys : list string :=
  ["situation"; "revenu1"; "age1"; "revenu2"; "age2"; "nb_enfants"].

(** *** The attributes of one child *)

(** Child [i] of a case is complete: its age comes from [ages_enfant]; at
    most 5 years old, its fee and care type come from the candidate lists;
    older, its fee is 0 and its care type ['Subventionnée']. *)
Definition child_ok (case : gmap string value) (i : Z) : Prop :=
  exists a, In a ages_enfant /\
    case !! age_enfant_key i = Some (VInt a) /\
    if a <=? 5 then
      exists f t, In f frais_garde /\ In t types_garde /\
        case !! frais_key i = Some (VInt f) /\
        case !! type_garde_key i = Some (VStr t)
    else
      case !! frais_key i = Some (VInt 0) /\
      case !! type_garde_key i = Some (VStr "Subventionnée").

(** *** One generated case *)

Definition adult_ages (situation : string) : list Z :=
  if est_retraite situation then ages_retraite else ages_travailleur.

(** The case before the children loop. *)
Definition base_case (situation : string) (revenu1 age1 revenu2 age2 n : Z)
  : gmap string value :=
  <["nb_enfants" := VInt n]>
  (<["age2" := VInt age2]>
  (<["revenu2" := VInt revenu2]>
  (<["age1" := VInt age1]>
  (<["revenu1" := VInt revenu1]>
  (<["situation" := VStr situation]> ∅))))).

(** What the six fixed keys of a case hold. *)
Definition adults_of (case : gmap string value)
    (situation : string) (revenu1 age1 revenu2 age2 n : Z) : Prop :=
  case !! "situation" = Some (VStr situation) /\
  case !! "revenu1" = Some (VInt revenu1) /\
  case !! "age1" = Some (VInt age1) /\
  case !! "revenu2" = Some (VInt revenu2) /\
  case !! "age2" = Some (VInt age2) /\
  case !! "nb_enfants" = Some (VInt n).

(** Everything one turn of the main loop guarantees about its case. *)
Definition case_ok (case : gmap string value) : Prop :=
  exists situation revenu1 age1 revenu2 age2 n,
    adults_of case situation revenu1 age1 revenu2 age2 n /\
    In situation situations /\
    In revenu1 revenus /\
    In age1 (adult_ages situation) /\
    (if est_couple situation
     then In revenu2 revenus /\ In age2 (adult_ages situation)
     else revenu2 = 0 /\ age2 = 0) /\
    In n nb_enfants /\
    (peut_avoir_enfants situation = false -> n = 0) /\
    (forall i, In i (range 1 (n + 1)) -> child_ok case i) /\
    (forall i k, ~ In i (range 1 (n + 1)) -> In k (child_keys i) ->
                 case !! k = None).

(** *** Household types *)

Definition childless_situation (situation : string) : Prop :=
  situation = "Personne vivant seule" \/
  situation = "Retraité vivant seul" \/
  situation = "Couple de retraités".

Definition couple_situation (situation : string) : Prop :=
  situation = "Couple" \/ situation = "Couple de retraités".

Definition retired_situation (situation : string) : Prop :=
  situation = "Retraité vivant seul" \/ situation = "Couple de retraités".

(** The structural invariants as the design document words them: no
    children and no child attribute for the three childless household
    types, and no fee or care-type attribute on a child older than 5. *)
Definition no_child_attributes (case : gmap string value) : Prop :=
  forall i k, In k (child_keys i) -> case !! k = None.

Definition childless_types_have_no_children (case : gmap string value) : Prop :=
  forall situation,
    case !! "situation" = Some (VStr situation) ->
    childless_situation situation ->
    case !! "nb_enfants" = Some (VInt 0) /\ no_child_attributes case.

Definition invariants_as_stated (case : gmap string value) : Prop :=
  childless_types_have_no_children case /\
  forall i a, case !! age_enfant_key i = Some (VInt a) -> 5 < a ->
    case !! frais_key i = None /\ case !! type_garde_key i = None.

(** The invariants the generator keeps: fee and care type are drawn from
    the candidate lists for a child of at most 5, and are the fixed 0 and
    ['Subventionnée'] for an older child. *)
Definition invariants_kept (case : gmap string value) : Prop :=
  childless_types_have_no_children case /\
  forall i a, case !! age_enfant_key i = Some (VInt a) ->
    (a <= 5 ->
       exists f t, In f frais_garde /\ In t types_garde /\
         case !! frais_key i = Some (VInt f) /\
         case !! type_garde_key i = Some (VStr t)) /\
    (5 < a ->
       case !! frais_key i = Some (VInt 0) /\
       case !! type_garde_key i = Some (VStr "Subventionnée")).

(** The adults of a case match its household type. *)
Definition adults_match_type (case : gmap string value) : Prop :=
  exists situation revenu1 age1 revenu2 age2 n,
    adults_of case situation revenu1 age1 revenu2 age2 n /\
    In situation situations /\
    (~ couple_situation situation -> revenu2 = 0 /\ age2 = 0) /\
    (couple_situation situation ->
       In revenu1 revenus /\ In revenu2 revenus /\
       (retired_situation situation ->
          In age1 [65; 75; 85] /\ In age2 [65; 75; 85]) /\
       (~ retired_situation situation ->
          In age1 [25; 35; 45; 55] /\ In age2 [25; 35; 45; 55])).

(** A small linear congruential generator as a sample random source. *)
Definition lcg_next (s : Z) : Z := (1103515245 * s + 12345) mod 2147483648.

Definition lcg_randbelow (n : nat) (s : Z) : nat * Z :=
  let s' := lcg_next s in
  (Z.to_nat ((s' / 65536) mod Z.of_nat n), s').

Definition lcg : RandomSource.
Proof.
  refine {| rng := Z;
            randbelow := lcg_randbelow;
            seed := fun a => a mod 2147483648 |}.
  intros n s Hn. unfold lcg_randbelow. cbn [fst].
  pose proof (Z.mod_pos_bound (lcg_next s / 65536) (Z.of_nat n) ltac:(lia)).
  lia.
Defined.

(** The cases a run returned. *)
Definition produced {S} (r : result (list (gmap string value) * S))
  : list (gmap string value) :=
  match r with
  | Ok (cases, _) => cases
  | Raise _ => []
  end.

End TestCases.

(** ** What the generator guarantees, and its main loop *)

Module GeneratedCases.

Import TestCases.
Local Open Scope Z_scope.

(** What the generator guarantees about the keys of a case: the number of
    children is between 0 and 3, and the case holds the six fixed keys and
    the three keys of each child [1 .. nb_enfants], nothing else. *)
Definition exact_keys (case : gmap string value) : Prop :=
  exists n,
    In n [0; 1; 2; 3] /\
    case !! "nb_enfants" = Some (VInt n) /\
    dom case =
      list_to_set (base_keys ++ flat_map child_keys (range 1 (n + 1))) /\
    size case = Z.to_nat (6 + 3 * n).

(** Every child counted by [nb_enfants] is described in full, from the
    candidate lists, and a positive fee goes with an age of at most 5. *)
Definition children_complete (case : gmap string value) : Prop :=
  exists n,
    case !! "nb_enfants" = Some (VInt n) /\
    forall i, 1 <= i <= n ->
      exists a f t,
        case !! age_enfant_key i = Some (VInt a) /\
        case !! frais_key i = Some (VInt f) /\
        case !! type_garde_key i = Some (VStr t) /\
        In a [2; 5; 10; 15] /\ In f [0; 8000; 15000] /\
        In t ["Subventionnée"; "Non subventionnée"] /\
        (0 < f -> a <= 5).

Section MainLoop.

Context `{RandomSource}.

(** The body of the main loop. *)
Definition append_case (_ : Z) (test_cases : list (gmap string value))
  : gen (list (gmap string value)) :=
  gen_bind generate_case (fun case => gen_ret (test_cases ++ [case])).

End MainLoop.

End GeneratedCases.

(** ** The browser-driven test run *)

Module RunTests.

Import TestCases.
Local Open Scope Z_scope.

(** What a test run can raise: an exception of the generator, a missing
    page element, a missing key of a case, or a value of the wrong type. *)
Inductive error : Type :=
| GeneratorError (e : exn)
| NoSuchElementException (id : string)
| KeyError (key : string)
| TypeError
| AttributeError.

Inductive outcome (A : Type) : Type :=
| Done (a : A)
| Failed (e : error).
Arguments Done {A} a.
Arguments Failed {A} e.

(** The calls that act on the browser. *)
Inductive event : Type :=
| Get (url : string)
| Click (id : string) (index : nat)
| ExecuteScript (script : string)
| Clear (id : string)
| SendKeys (id : string) (keys : string)
| Quit.

(** The browser behind Selenium: the page it shows, which elements and
    option texts and [value] attributes the page has, and how the page
    changes when it is acted on. *)
Class WebDriver : Type := {
  page : Type;
  firefox : page;
  present : string -> page -> bool;
  option_texts : string -> page -> list string;
  value_attribute : string -> page -> option string;
  react : event -> page -> page
}.

(** What a finished case holds: the generated values and, after
    [case.update(test_results)], the [value] attributes read from the page
    ([None] when the attribute is absent). *)
Inductive entry : Type :=
| Generated (v : value)
| Extracted (s : option string).

(** [str(value)]. *)
Definition str (v : value) : string :=
  match v with
  | VStr s => s
  | VInt n => pretty n
  end.

(** [f"recalc_onclick('{element_id}')"]. *)
Definition recalc_onclick (element_id : string) : string :=
  "recalc_onclick('" +:+ element_id +:+ "')".

Definition result_fields : list string :=
  ["RD_new"; "QC_total_new"; "CA_total_new"; "Cotisation_new"].

(** The element ids [f'AgeEnfant{i}'] and [f'Frais{i}']; the care type is
    selected in the element [f'type_garde{i}'], named like the key. *)
Definition AgeEnfant (i : Z) : string := "AgeEnfant" +:+ pretty i.
Definition Frais (i : Z) : string := "Frais" +:+ pretty i.

(** [f"{n} enfant{'s' if n > 1 else ''}" if n > 0 else 'Aucun enfant']. *)
Definition children_label (n : Z) : string :=
  if 0 <? n then pretty n +:+ " enfant" +:+ (if 1 <? n then "s" else "")
  else "Aucun enfant".

Section Tester.

Context `{RandomSource} `{WebDriver}.

(** [str.strip()]. *)
Variable strip : string -> string.

(** A [TaxCalculatorTest]: its driver's page, and the calls made so far. *)
Record tester : Type := Tester { current : page; log : list event }.

(** Code that drives the browser; a failure keeps what was done before. *)
Definition io (A : Type) : Type := tester -> outcome A * tester.

Definition io_ret {A} (a : A) : io A := fun t => (Done a, t).
Definition fail {A} (e : error) : io A := fun t => (Failed e, t).
Definition io_bind {A B} (m : io A) (k : A -> io B) : io B :=
  fun t =>
    match m t with
    | (Done a, t') => k a t'
    | (Failed e, t') => (Failed e, t')
    end.

Notation "x <- m ;; k" := (io_bind m (fun x => k))
  (at level 100, m at next level, right associativity).
Notation "m ;;; k" := (io_bind m (fun _ => k))
  (at level 100, right associativity).

Definition emit (e : event) : io unit := fun t =>
  (Done tt, Tester (react e (current t)) (log t ++ [e])).

Definition read {A} (f : page -> A) : io A := fun t => (Done (f (current t)), t).

(** [driver.find_element(By.ID, id)]. *)
Definition find_element (id : string) : io unit := fun t =>
  if present id (current t) then (Done tt, t)
  else (Failed (NoSuchElementException id), t).

(** [TaxCalculatorTest(url)]: a new Firefox, sent to [url]. *)
Definition TaxCalculatorTest (url : string) : tester :=
  Tester (react (Get url) firefox) [Get url].

(** The loop of [select_by_text] over the options, from the option at
    [index]: click the first one whose stripped text is the stripped
    [text], and stop. *)
Fixpoint click_first (element_id : string) (text : value)
    (texts : list string) (index : nat) : io unit :=
  match texts with
  | [] => io_ret tt
  | option_text :: rest =>
      match text with
      | VStr s =>
          if String.eqb (strip option_text) (strip s)
          then emit (Click element_id index)
          else click_first element_id text rest (S index)
      | VInt _ => fail AttributeError
      end
  end.

Definition select_by_text (element_id : string) (text : value) : io unit :=
  find_element element_id ;;;
  texts <- read (option_texts element_id) ;;
  click_first element_id text texts 0 ;;;
  emit (ExecuteScript (recalc_onclick element_id)).

Definition fill_field (selector : string) (v : value) : io unit :=
  find_element selector ;;;
  emit (Clear selector) ;;;
  emit (SendKeys selector (str v)) ;;;
  emit (ExecuteScript (recalc_onclick selector)).

Fixpoint io_for_each {A S} (xs : list A) (body : A -> S -> io S) (acc : S)
  : io S :=
  match xs with
  | [] => io_ret acc
  | x :: xs' => acc' <- body x acc ;; io_for_each xs' body acc'
  end.

Definition extract_results : io (gmap string (option string)) :=
  io_for_each result_fields
    (fun field results =>
       find_element field ;;;
       v <- read (value_attribute field) ;;
       io_ret (<[field := v]> results))
    ∅.

Definition close : io unit := emit Quit.

(** [case[key]], [v > 0], [v > 1] and [v + 1] on the values of a case. *)
Definition item (case : gmap string value) (key : string) : io value :=
  match case !! key with
  | Some v => io_ret v
  | None => fail (KeyError key)
  end.

Definition greater_than (v : value) (bound : Z) : io bool :=
  match v with
  | VInt n => io_ret (bound <? n)
  | VStr _ => fail TypeError
  end.

Definition plus_one (v : value) : io Z :=
  match v with
  | VInt n => io_ret (n + 1)
  | VStr _ => fail TypeError
  end.

(** The text chosen in [NbEnfants]. *)
Definition nb_enfants_text (v : value) : io string :=
  positive <- greater_than v 0 ;;
  if positive then
    several <- greater_than v 1 ;;
    io_ret (str v +:+ " enfant" +:+ (if several then "s" else ""))
  else io_ret "Aucun enfant".

(** The body of the loop over the children of a case. *)
Definition enter_child (case : gmap string value) (i : Z) : io unit :=
  age <- item case (age_enfant_key i) ;;
  fill_field (AgeEnfant i) age ;;;
  paid <- greater_than (default (VInt 0) (case !! frais_key i)) 0 ;;
  if paid then
    frais <- item case (frais_key i) ;;
    fill_field (Frais i) frais ;;;
    type_garde <- item case (type_garde_key i) ;;
    select_by_text (type_garde_key i) type_garde
  else io_ret tt.

(** [case.update(test_results)]. *)
Definition update (case : gmap string value)
    (test_results : gmap string (option string)) : gmap string entry :=
  (Extracted <$> test_results) ∪ (Generated <$> case).

(** The body of the loop of [run_tests] over the cases: enter the case,
    read the results, and merge them into the case.  ([time.sleep] has no
    counterpart.) *)
Definition run_case (case : gmap string value) : io (gmap string entry) :=
  situation <- item case "situation" ;;
  select_by_text "Situation" situation ;;;
  revenu1 <- item case "revenu1" ;;
  fill_field "Revenu1" revenu1 ;;;
  age1 <- item case "age1" ;;
  fill_field "AgeAdulte1" age1 ;;;
  revenu2 <- item case "revenu2" ;;
  second <- greater_than revenu2 0 ;;
  (if second then
     fill_field "Revenu2" revenu2 ;;;
     age2 <- item case "age2" ;;
     fill_field "AgeAdulte2" age2
   else io_ret tt) ;;;
  nb <- item case "nb_enfants" ;;
  text <- nb_enfants_text nb ;;
  select_by_text "NbEnfants" (VStr text) ;;;
  upper <- plus_one nb ;;
  io_for_each (range 1 upper) (fun i _ => enter_child case i) tt ;;;
  test_results <- extract_results ;;
  io_ret (update case test_results).

(** [run_tests()]: five generated cases, each run through the page; the
    browser is closed whatever happens in the loop. *)
Definition run_tests (url : string) (s : rng)
  : outcome (list (gmap string entry)) * list event :=
  match generate_test_cases 5 s with
  | Raise e => (Failed (GeneratorError e), [])
  | Ok (test_cases, _) =>
      let (results, t) :=
        io_for_each test_cases
          (fun case results =>
             merged <- run_case case ;; io_ret (results ++ [merged]))
          [] (TaxCalculatorTest url) in
      let (_, t') := close t in
      (results, log t')
  end.

(** *** What is observed of a run *)

(** [m] only adds events satisfying [P] to the log, and what it returns
    satisfies [Q]. *)
Definition sends {A} (m : io A) (P : event -> Prop) (Q : A -> Prop) : Prop :=
  forall t,
    (exists es, log (snd (m t)) = log t ++ es /\ Forall P es) /\
    match fst (m t) with
    | Done a => Q a
    | Failed _ => True
    end.

Definition runs {A} (m : io A) (Q : A -> Prop) : Prop :=
  forall t, exists a, fst (m t) = Done a /\ Q a.

(** The tester after a list of events. *)
Definition perform (events : list event) (t : tester) : tester :=
  fold_left (fun t e => snd (emit e t)) events t.

(** The click [select_by_text] makes: on the first option whose stripped
    text is the stripped target, if there is one. *)
Definition first_match_click (id s : string) (texts : list string)
  : list event :=
  match list_find (fun o => strip o = strip s) texts with
  | Some (i, _) => [Click id i]
  | None => []
  end.

End Tester.

(** A page on which every element is found, without options or values. *)
Definition blank_page : WebDriver :=
  {| page := unit;
     firefox := tt;
     present := fun _ _ => true;
     option_texts := fun _ _ => [];
     value_attribute := fun _ _ => None;
     react := fun _ p => p |}.

(** The events that act on the element [id]. *)
Definition on_element (P : event -> Prop) (id : string) : Prop :=
  (forall index, P (Click id index)) /\
  P (Clear id) /\
  (forall keys, P (SendKeys id keys)).

Definition scripts (P : event -> Prop) : Prop :=
  forall id, P (ExecuteScript (recalc_onclick id)).

(** The fee of child [i] is a positive number. *)
Definition paid (case : gmap string value) (i : Z) : Prop :=
  exists f, case !! frais_key i = Some (VInt f) /\ 0 < f.

(** The income of the second adult is a positive number. *)
Definition second_income (case : gmap string value) : Prop :=
  exists r, case !! "revenu2" = Some (VInt r) /\ 0 < r.

(** The number of children of a case is at least [i]. *)
Definition has_child (case : gmap string value) (i : Z) : Prop :=
  exists n, case !! "nb_enfants" = Some (VInt n) /\ 1 <= i <= n.

(** The elements a case gives reason to act on. *)
Definition entered (case : gmap string value) (P : event -> Prop) : Prop :=
  on_element P "Situation" /\ on_element P "Revenu1" /\
  on_element P "AgeAdulte1" /\ on_element P "NbEnfants" /\
  (second_income case ->
     on_element P "Revenu2" /\ on_element P "AgeAdulte2") /\
  (forall i, has_child case i -> on_element P (AgeEnfant i)) /\
  (forall i, has_child case i -> paid case i ->
     on_element P (Frais i) /\ on_element P (type_garde_key i)) /\
  scripts P.

(** An event between the opening and the closing of the browser. *)
Definition interaction (e : event) : Prop :=
  match e with
  | Get _ | Quit => False
  | _ => True
  end.

(** The event acts on the element [id]. *)
Definition acts_on (id : string) (e : event) : Prop :=
  match e with
  | Click id' _ | Clear id' | SendKeys id' _ => id' = id
  | _ => False
  end.

(** A finished case keeps every generated value and gains the four result
    fields. *)
Definition merged (case : gmap string value) (record : gmap string entry)
  : Prop :=
  (forall k v, case !! k = Some v -> record !! k = Some (Generated v)) /\
  (forall f, In f result_fields -> exists o, record !! f = Some (Extracted o)) /\
  dom record = dom case ∪ list_to_set result_fields.

(** *** A sample tester and case *)

Definition sample_tester : @tester blank_page :=
  @TaxCalculatorTest blank_page "file:///index.html".

Definition sample_case : gmap string value :=
  base_case "Couple" 45000 35 30000 35 0.

End RunTests.

(** ** The tooltip position (commun.js) *)

Module Tooltip.

Local Open Scope Q_scope.

(** [a > b] and [a >= b] on numbers. *)
Definition gt (a b : Q) : bool := negb (Qle_bool a b).
Definition ge (a b : Q) : bool := Qle_bool b a.

(** [initPositionTooltip]: the number it writes, followed by "px", into
    [style.left] of the tooltip text, from the [offsetLeft] of the button,
    the width of the tooltip text and the client width of the document. *)
Definition initPositionTooltip (gaucheBouton largeurTooltip clientWidth : Q)
  : Q :=
  if gt (largeurTooltip / 2 + 50) gaucheBouton then
    - (gaucheBouton - 10)
  else if ge (gaucheBouton + largeurTooltip / 2 + 40) clientWidth then
    if gt largeurTooltip gaucheBouton then - (gaucheBouton - 10)
    else - (largeurTooltip - 40)
  else - (largeurTooltip / 2).

End Tooltip.

(** ** The display of amounts (francais.js) *)

Module Display.

(** [s.replace(/-/g, "−")]: every hyphen-minus becomes a minus sign. *)
Fixpoint replace_hyphens (s : string) : string :=
  match s with
  | EmptyString => EmptyString
  | String c s' =>
      if Ascii.eqb c "-" then "−" +:+ replace_hyphens s'
      else String c (replace_hyphens s')
  end.

Section Patched.

(** The values passed in, the test [eeisnumber(value)], the comparison
    [value == 0], and the display function that is replaced: all three come
    from the page's own script. *)
Variable jsval : Type.
Variable eeisnumber : jsval -> bool.
Variable equals_zero : jsval -> bool.
Variable old_eedisplayFloatNDTh : jsval -> jsval -> string.

(** What the new function returns: a text, or the value it was given. *)
Inductive shown : Type :=
| Text (s : string)
| Same (v : jsval).

Definition eedisplayFloatNDTh (value round : jsval) : shown :=
  if eeisnumber value then
    if equals_zero value then Text "―"
    else Text (replace_hyphens (old_eedisplayFloatNDTh value round))
  else Same value.

(** The second replacement also calls the old [eedisplayFloatNDTh]. *)
Definition eedisplayFloatND (value round : jsval) : shown :=
  if eeisnumber value then
    if equals_zero value then Text "―"
    else Text (replace_hyphens (old_eedisplayFloatNDTh value round))
  else Same value.

End Patched.

Arguments Text {jsval} s.
Arguments Same {jsval} v.

(** The characters of a string. *)
Fixpoint chars (s : string) : list ascii :=
  match s with
  | EmptyString => []
  | String c s' => c :: chars s'
  end.

End Display.

(** ** Properties of the income tax calculator *)

Module QuebecTaxProofs.

Import QuebecTax.
Local Open Scope Q_scope.

(** *** Basic facts *)

Lemma Qltb_true (x y : Q) : Qltb x y = true <-> x < y.
Proof.
  unfold Qltb. rewrite negb_true_iff, <- not_true_iff_false, Qle_bool_iff.
  split; [apply Qnot_le_lt | apply Qlt_not_le].
Qed.

Lemma Qltb_false (x y : Q) : Qltb x y = false <-> y <= x.
Proof. unfold Qltb. rewrite negb_false_iff. apply Qle_bool_iff. Qed.

Lemma Qle_bool_false (x y : Q) : Qle_bool x y = false <-> y < x.
Proof.
  rewrite <- not_true_iff_false, Qle_bool_iff.
  split; [apply Qnot_le_lt | apply Qlt_not_le].
Qed.

(** Case analysis on every comparison the code makes, leaving the
    arithmetic to [lra]. *)
Ltac qcases :=
  repeat match goal with
    | |- context [Qltb ?a ?b] =>
        let E := fresh "E" in
        destruct (Qltb a b) eqn:E;
        [apply Qltb_true in E | apply Qltb_false in E];
        try solve [exfalso; lra]
    | |- context [Qle_bool ?a ?b] =>
        let E := fresh "E" in
        destruct (Qle_bool a b) eqn:E;
        [apply Qle_bool_iff in E | apply Qle_bool_false in E];
        try solve [exfalso; lra]
    end.

Lemma py_min_ext_min (x : Q) (m : bound) : py_min x m == ext_min x m.
Proof.
  destruct m as [u|]; simpl; [|reflexivity].
  qcases.
  - symmetry. apply Q.min_r. lra.
  - symmetry. apply Q.min_l. lra.
Qed.

Lemma calculate_tax_run (x : Q) (y : option Z) (bs : list bracket) :
  calculate_tax x (Calculator y (Some bs)) =
  (Ok (fold_left (tax_step x) bs 0), Calculator y (Some bs)).
Proof. reflexivity. Qed.

Lemma constructed (y : Z) (c : calculator) :
  QuebecIncomeTaxCalculator y = Ok c ->
  supported y /\
  exists bs, c = Calculator (Some y) (Some bs) /\ eval get_tax_brackets c = Ok bs.
Proof.
  unfold supported.
  cbv [QuebecIncomeTaxCalculator __init__ bind set_year get_tax_brackets
       self_year fresh year tax_brackets set_tax_brackets ret raise eval fst].
  destruct (Z.eqb_spec y 2023) as [->|H23].
  - intros [= <-]. split; [now left|]. eexists. split; reflexivity.
  - destruct (Z.eqb_spec y 2024) as [->|H24].
    + intros [= <-]. split; [now right|]. eexists. split; reflexivity.
    + discriminate.
Qed.

Lemma supported_constructs (y : Z) :
  supported y -> exists c, QuebecIncomeTaxCalculator y = Ok c.
Proof. intros [-> | ->]; eexists; reflexivity. Qed.

(** The loop adds each selected bracket's term to the running total. *)
Lemma fold_tax_step_sum (x : Q) (bs : list bracket) (acc : Q) :
  fold_left (tax_step x) bs acc == acc + progressive_bracket_sum bs x.
Proof.
  revert acc. induction bs as [|b bs IH]; intros acc.
  - unfold progressive_bracket_sum. simpl. lra.
  - cbn [fold_left]. rewrite IH.
    unfold progressive_bracket_sum, tax_step. cbn [List.filter].
    destruct (Qltb (bmin b) x); cbn [List.map fold_right].
    + rewrite py_min_ext_min. lra.
    + lra.
Qed.

(** *** Progressive bracket evaluation *)

(** C1. For a supported year and a non-negative income [x],
    [calculate_tax(x)] is the progressive-bracket sum of
    [rate * (min(x, upper) - lower)] over the brackets of the year's table
    whose lower bound is strictly below [x]; the table is ordered,
    non-overlapping, and its top bracket is unbounded. *)
Theorem calculate_tax_progressive_sum (y : Z) (c : calculator) (x : Q) :
  QuebecIncomeTaxCalculator y = Ok c ->
  0 <= x ->
  exists bs t,
    tax_brackets c = Some bs /\
    eval get_tax_brackets c = Ok bs /\
    ordered bs /\ non_overlapping bs /\ top_unbounded bs /\
    eval (calculate_tax x) c = Ok t /\
    t == progressive_bracket_sum bs x.
Proof.
  intros Hc _.
  destruct (constructed y c Hc) as [Hy (bs & -> & Hbs)].
  exists bs, (fold_left (tax_step x) bs 0).
  split; [reflexivity|]. split; [exact Hbs|].
  assert (Hshape : ordered bs /\ non_overlapping bs /\ top_unbounded bs).
  { destruct Hy as [-> | ->]; injection Hbs as <-;
      cbn [ordered non_overlapping top_unbounded last bmin bmax];
      repeat split; lra. }
  destruct Hshape as (Ho & Hn & Ht).
  repeat split; try assumption.
  rewrite fold_tax_step_sum. lra.
Qed.

Lemma calculate_tax_progressive_sum_witness :
  0 <= 30000 /\
  exists bs t,
    tax_brackets (built 2023) = Some bs /\
    eval get_tax_brackets (built 2023) = Ok bs /\
    ordered bs /\ non_overlapping bs /\ top_unbounded bs /\
    eval (calculate_tax 30000) (built 2023) = Ok t /\
    t == progressive_bracket_sum bs 30000.
Proof.
  split; [lra|].
  apply (calculate_tax_progressive_sum 2023 (built 2023) 30000);
    [reflexivity | lra].
Defined.

(** *** Unsupported years *)

Lemma get_tax_brackets_unsupported (y : Z) (self : calculator) :
  year self = Some y -> ~ supported y ->
  eval get_tax_brackets self = Raise year_not_supported.
Proof.
  unfold supported. intros Hy Hn.
  cbv [eval get_tax_brackets bind self_year fst]. rewrite Hy.
  destruct (Z.eqb_spec y 2023); [tauto|].
  destruct (Z.eqb_spec y 2024); [tauto|]. reflexivity.
Qed.

Lemma calculate_tax_reduction_unsupported (y : Z) (self : calculator) (income : Q) :
  year self = Some y -> ~ supported y ->
  eval (calculate_tax_reduction income) self = Raise year_not_supported.
Proof.
  unfold supported. intros Hy Hn.
  cbv [eval calculate_tax_reduction bind self_year fst]. rewrite Hy.
  destruct (Z.eqb_spec y 2023); [tauto|].
  destruct (Z.eqb_spec y 2024); [tauto|]. reflexivity.
Qed.

Lemma constructor_unsupported (y : Z) :
  ~ supported y -> QuebecIncomeTaxCalculator y = Raise year_not_supported.
Proof.
  unfold supported. intros Hn.
  cbv [QuebecIncomeTaxCalculator __init__ bind set_year get_tax_brackets
       self_year fresh year tax_brackets set_tax_brackets ret raise].
  destruct (Z.eqb_spec y 2023); [tauto|].
  destruct (Z.eqb_spec y 2024); [tauto|]. reflexivity.
Qed.

Lemma calculate_tax_reduction_supported (y : Z) (self : calculator) (income : Q) :
  year self = Some y -> supported y ->
  eval (calculate_tax_reduction income) self =
    Ok (if Qle_bool income (reduction_threshold y)
        then income * 0.165 else reduction_threshold y * 0.165).
Proof.
  intros Hy Hs.
  cbv [eval calculate_tax_reduction bind self_year fst]. rewrite Hy.
  destruct Hs as [-> | ->]; cbn [Z.eqb Pos.eqb ret reduction_threshold];
    destruct (Qle_bool income _); reflexivity.
Qed.

(** C5. For a year outside {2023, 2024}, [get_tax_brackets], the
    constructor and [calculate_tax_reduction] raise the year-not-supported
    error; for 2023 and 2024 none of them raises. *)
Theorem unsupported_year_error (y : Z) (self : calculator) (income : Q) :
  year self = Some y ->
  (~ supported y ->
     eval get_tax_brackets self = Raise year_not_supported /\
     QuebecIncomeTaxCalculator y = Raise year_not_supported /\
     eval (calculate_tax_reduction income) self = Raise year_not_supported) /\
  (supported y ->
     is_ok (eval get_tax_brackets self) = true /\
     is_ok (QuebecIncomeTaxCalculator y) = true /\
     is_ok (eval (calculate_tax_reduction income) self) = true).
Proof.
  intros Hy. split.
  - intros Hn. repeat split.
    + now apply get_tax_brackets_unsupported with y.
    + now apply constructor_unsupported.
    + now apply calculate_tax_reduction_unsupported with y.
  - intros Hs. repeat split.
    + cbv [eval get_tax_brackets bind self_year fst]. rewrite Hy.
      destruct Hs as [-> | ->]; reflexivity.
    + destruct Hs as [-> | ->]; reflexivity.
    + now rewrite (calculate_tax_reduction_supported y).
Qed.

Lemma unsupported_year_error_witness :
  (eval get_tax_brackets (Calculator (Some 2025%Z) None) = Raise year_not_supported /\
   QuebecIncomeTaxCalculator 2025 = Raise year_not_supported /\
   eval (calculate_tax_reduction 80000) (Calculator (Some 2025%Z) None)
     = Raise year_not_supported) /\
  (is_ok (eval get_tax_brackets (built 2024)) = true /\
   is_ok (QuebecIncomeTaxCalculator 2024) = true /\
   is_ok (eval (calculate_tax_reduction 80000) (built 2024)) = true).
Proof.
  split.
  - apply (unsupported_year_error 2025 (Calculator (Some 2025%Z) None) 80000);
      [reflexivity | intros [H | H]; discriminate H].
  - apply (unsupported_year_error 2024 (built 2024) 80000);
      [reflexivity | right; reflexivity].
Defined.

(** *** Zero income and low incomes *)

(** C6. With zero income every amount is zero: for a supported year,
    [calculate_tax(0)], [calculate_tax_reduction(0)] and
    [calculate_total_tax(0)] are all 0. *)
Theorem zero_income_zero_amounts (y : Z) (c : calculator) :
  QuebecIncomeTaxCalculator y = Ok c ->
  exists tax reduction total,
    eval (calculate_tax 0) c = Ok tax /\ tax == 0 /\
    eval (calculate_tax_reduction 0) c = Ok reduction /\ reduction == 0 /\
    eval (calculate_total_tax 0) c = Ok total /\ total == 0.
Proof.
  intros Hc. destruct (constructed y c Hc) as [Hy (bs & -> & Hbs)].
  destruct Hy as [-> | ->]; injection Hbs as <-;
    do 3 eexists; repeat split; try reflexivity.
Qed.

Lemma zero_income_zero_amounts_witness :
  exists tax reduction total,
    eval (calculate_tax 0) (built 2024) = Ok tax /\ tax == 0 /\
    eval (calculate_tax_reduction 0) (built 2024) = Ok reduction /\ reduction == 0 /\
    eval (calculate_total_tax 0) (built 2024) = Ok total /\ total == 0.
Proof. apply (zero_income_zero_amounts 2024 (built 2024)). reflexivity. Defined.

Lemma total_tax_run (y : Z) (bs : list bracket) (x : Q) :
  supported y ->
  eval (calculate_total_tax x) (Calculator (Some y) (Some bs)) =
    Ok (fold_left (tax_step x) bs 0 -
        (if Qle_bool x (reduction_threshold y)
         then x * 0.165 else reduction_threshold y * 0.165)).
Proof.
  intros Hs.
  pose proof (calculate_tax_reduction_supported y
                (Calculator (Some y) (Some bs)) x eq_refl Hs) as Hr.
  unfold eval in *. unfold calculate_total_tax, bind.
  rewrite calculate_tax_run.
  destruct (calculate_tax_reduction x _) as [r self']. simpl in Hr. subst r.
  reflexivity.
Qed.



(** *** The tax reduction *)

Lemma phase_out_below_threshold (base rate thr income : Q) :
  income <= thr -> phase_out base rate thr income == Qmax 0 base.
Proof.
  intros H. unfold phase_out.
  assert (E : Qmax 0 (income - thr) == 0) by (apply Q.max_l; lra).
  rewrite E.
  destruct (Q.max_spec 0 (base - rate * 0)) as [[? E1] | [? E1]];
    destruct (Q.max_spec 0 base) as [[? E2] | [? E2]];
    rewrite E1, E2; lra.
Qed.

(** C2, as stated, fails for 2023: the code returns 0 at income 0 and 165 at
    income 1000, while a phase-out is constant below its threshold. *)
Lemma tax_reduction_not_phase_out : ~ follows_phase_out 2023 (built 2023).
Proof.
  intros [base H].
  destruct (H 0 ltac:(lra)) as (r0 & E0 & H0).
  destruct (H 1000 ltac:(lra)) as (r1 & E1 & H1).
  injection E0 as <-. injection E1 as <-.
  rewrite phase_out_below_threshold in H0 by (vm_compute; discriminate).
  rewrite phase_out_below_threshold in H1 by (vm_compute; discriminate).
  rewrite <- H0 in H1. revert H1. vm_compute. discriminate.
Qed.

(** No other choice of rate and threshold helps: the code's values at
    incomes 0, 16143 and 32286 (0, then twice 2663.595) fit no phase-out
    formula at all. *)
Lemma tax_reduction_fits_no_phase_out :
  ~ exists base rate thr, forall income, 0 <= income ->
      exists r, eval (calculate_tax_reduction income) (built 2023) = Ok r /\
                r == phase_out base rate thr income.
Proof.
  intros (base & rate & thr & H).
  destruct (H 0 ltac:(lra)) as (r0 & E0 & H0).
  destruct (H 16143 ltac:(lra)) as (r1 & E1 & H1).
  destruct (H 32286 ltac:(lra)) as (r2 & E2 & H2).
  injection E0 as <-. injection E1 as <-. injection E2 as <-.
  unfold phase_out in *.
  destruct (Q.max_spec 0 (0 - thr)) as [[? A0] | [? A0]];
    destruct (Q.max_spec 0 (16143 - thr)) as [[? A1] | [? A1]];
    destruct (Q.max_spec 0 (32286 - thr)) as [[? A2] | [? A2]];
    rewrite A0 in H0; rewrite A1 in H1; rewrite A2 in H2; try lra;
    destruct (Q.max_spec 0 (base - rate * (0 - thr))) as [[? B0] | [? B0]];
    destruct (Q.max_spec 0 (base - rate * 0)) as [[? B0'] | [? B0']];
    destruct (Q.max_spec 0 (base - rate * (16143 - thr))) as [[? B1] | [? B1]];
    destruct (Q.max_spec 0 (base - rate * (32286 - thr))) as [[? B2] | [? B2]];
    rewrite ?B0, ?B0', ?B1, ?B2 in *;
    vm_compute (16143 * 0.165) in *; vm_compute (0 * 0.165) in *;
    try lra; nra.
Qed.

(** C2, amended. For a supported year and a non-negative income,
    [calculate_tax_reduction(income)] is
    [reduction_rate * min(income, threshold)] with rate 0.165 and the
    year's threshold: it grows with income up to the threshold, stays at
    [reduction_rate * threshold] above it, and is never negative. *)
Theorem tax_reduction_capped_linear (y : Z) (c : calculator) (income : Q) :
  QuebecIncomeTaxCalculator y = Ok c ->
  0 <= income ->
  exists r,
    eval (calculate_tax_reduction income) c = Ok r /\
    r == 0.165 * Qmin income (reduction_threshold y) /\
    0 <= r.
Proof.
  intros Hc Hpos. destruct (constructed y c Hc) as [Hy (bs & -> & _)].
  rewrite (calculate_tax_reduction_supported
             y (Calculator (Some y) (Some bs)) income eq_refl Hy).
  eexists. split; [reflexivity|].
  assert (Ht : 0 <= reduction_threshold y)
    by (destruct Hy as [-> | ->]; vm_compute; discriminate).
  destruct (Q.min_spec income (reduction_threshold y)) as [[? ->] | [? ->]];
    qcases; split; lra.
Qed.

Lemma tax_reduction_capped_linear_witness :
  0 <= 80000 /\
  exists r,
    eval (calculate_tax_reduction 80000) (built 2023) = Ok r /\
    r == 0.165 * Qmin 80000 (reduction_threshold 2023) /\
    0 <= r.
Proof.
  split; [lra|].
  apply (tax_reduction_capped_linear 2023 (built 2023) 80000);
    [reflexivity | lra].
Defined.

(** *** Shape of the tax as a function of income *)

Lemma py_min_mono (x x' : Q) (m : bound) : x <= x' -> py_min x m <= py_min x' m.
Proof. intros H. destruct m; simpl; qcases; lra. Qed.

Lemma py_min_lip (x x' : Q) (m : bound) :
  x <= x' -> py_min x' m - py_min x m <= x' - x.
Proof. intros H. destruct m; simpl; qcases; lra. Qed.

Lemma py_min_lower (l x : Q) (m : bound) :
  le_bound l m -> l <= x -> l <= py_min x m.
Proof. intros Hm H. destruct m; simpl in *; qcases; lra. Qed.

Lemma py_min_upper (x : Q) (m : bound) : py_min x m <= x.
Proof. destruct m; simpl; qcases; lra. Qed.

Lemma tax_step_mono (b : bracket) (x x' a a' : Q) :
  bracket_ok b -> x <= x' -> a <= a' ->
  tax_step x a b <= tax_step x' a' b.
Proof.
  intros [Hr Hb] Hx Ha. unfold tax_step. qcases.
  - pose proof (Qmult_le_compat_r _ _ (rate b)
                  (py_min_mono x x' (bmax b) Hx) Hr). lra.
  - pose proof (py_min_lower _ x' _ Hb ltac:(lra)) as Hl.
    pose proof (Qmult_le_0_compat (py_min x' (bmax b) - bmin b) (rate b)
                  ltac:(lra) Hr). lra.
  - lra.
Qed.

Lemma tax_step_lip (b : bracket) (x x' a a' L : Q) :
  bracket_ok b -> x <= x' -> a' - a <= L * (x' - x) ->
  tax_step x' a' b - tax_step x a b <= (L + rate b) * (x' - x).
Proof.
  intros [Hr Hb] Hx Ha. unfold tax_step. qcases.
  - pose proof (Qmult_le_compat_r _ _ (rate b)
                  (py_min_lip x x' (bmax b) Hx) Hr). lra.
  - pose proof (py_min_upper x' (bmax b)) as Hu.
    assert (Hd : py_min x' (bmax b) - bmin b <= x' - x) by lra.
    pose proof (Qmult_le_compat_r _ _ (rate b) Hd Hr). lra.
  - pose proof (Qmult_le_0_compat (rate b) (x' - x) Hr ltac:(lra)). lra.
Qed.

Lemma fold_tax_step_mono (bs : list bracket) (x x' : Q) :
  Forall bracket_ok bs -> x <= x' ->
  forall a a', a <= a' ->
    fold_left (tax_step x) bs a <= fold_left (tax_step x') bs a'.
Proof.
  intros Hbs Hx. induction Hbs as [|b bs Hb _ IH]; intros a a' Ha.
  - exact Ha.
  - cbn [fold_left]. apply IH. now apply tax_step_mono.
Qed.

Lemma fold_tax_step_lip (bs : list bracket) (x x' : Q) :
  Forall bracket_ok bs -> x <= x' ->
  forall a a' L, a' - a <= L * (x' - x) ->
    fold_left (tax_step x') bs a' - fold_left (tax_step x) bs a
      <= (L + sum_rates bs) * (x' - x).
Proof.
  intros Hbs Hx. induction Hbs as [|b bs Hb _ IH]; intros a a' L Ha.
  - unfold sum_rates. simpl. lra.
  - cbn [fold_left].
    pose proof (IH _ _ _ (tax_step_lip b x x' a a' L Hb Hx Ha)) as H.
    unfold sum_rates in *. cbn [List.map fold_right]. lra.
Qed.

(** A table of admissible brackets whose rates add up to at most 1 gives a
    tax that moves by at most the change in income. *)
Lemma tax_between (bs : list bracket) (x x' : Q) :
  Forall bracket_ok bs -> sum_rates bs <= 1 -> x <= x' ->
  0 <= fold_left (tax_step x') bs 0 - fold_left (tax_step x) bs 0 <= x' - x.
Proof.
  intros Hbs Hs Hx. split.
  - pose proof (fold_tax_step_mono bs x x' Hbs Hx 0 0 ltac:(lra)). lra.
  - pose proof (fold_tax_step_lip bs x x' Hbs Hx 0 0 0 ltac:(lra)) as H.
    pose proof (Qmult_le_compat_r _ _ (x' - x) Hs ltac:(lra)). lra.
Qed.

Lemma tax_continuous (bs : list bracket) (x0 : Q) :
  Forall bracket_ok bs -> sum_rates bs <= 1 ->
  continuous_at (fun x => fold_left (tax_step x) bs 0) x0.
Proof.
  intros Hbs Hs eps Heps. exists eps. split; [exact Heps|].
  intros x _ Hx. apply Qabs_Qlt_condition in Hx. apply Qabs_Qlt_condition.
  destruct (Qlt_le_dec x x0) as [Hlt | Hle].
  - pose proof (tax_between bs x x0 Hbs Hs ltac:(lra)). lra.
  - pose proof (tax_between bs x0 x Hbs Hs Hle). lra.
Qed.

Lemma supported_table_ok (y : Z) (c : calculator) :
  QuebecIncomeTaxCalculator y = Ok c ->
  exists bs, c = Calculator (Some y) (Some bs) /\
             Forall bracket_ok bs /\ sum_rates bs <= 1.
Proof.
  intros Hc. destruct (constructed y c Hc) as [Hy (bs & -> & Hbs)].
  exists bs. split; [reflexivity|].
  destruct Hy as [-> | ->]; injection Hbs as <-;
    (split; [repeat constructor; simpl; lra | vm_compute; discriminate]).
Qed.

Ltac at_lower_bound l bs :=
  let v := fresh "v" in
  set (v := fold_left (tax_step l) bs 0); vm_compute in v; subst v.

Lemma supported_table_linear (y : Z) (tb : option (list bracket))
      (bs : list bracket) :
  supported y ->
  eval get_tax_brackets (Calculator (Some y) tb) = Ok bs ->
  linear_on_brackets bs (fun x => fold_left (tax_step x) bs 0).
Proof.
  intros Hy Hbs. unfold linear_on_brackets.
  destruct Hy as [-> | ->]; injection Hbs as <-;
    repeat (apply List.Forall_cons || apply List.Forall_nil);
    cbn [bmin bmax rate le_bound]; intros x Hlo Hhi;
    match goal with
    | |- _ == fold_left (tax_step ?l) ?bs 0 + _ => at_lower_bound l bs
    end;
    cbn [fold_left]; unfold tax_step, py_min; cbn [bmin bmax rate];
    qcases; lra.
Qed.

(** C3. For a supported year, [calculate_tax] is a function of income that
    is non-decreasing on the non-negative incomes, continuous at every
    income (so without a jump at a bracket boundary), and linear on each
    bracket of the year's table. *)
Theorem calculate_tax_continuous_monotone (y : Z) (c : calculator) :
  QuebecIncomeTaxCalculator y = Ok c ->
  exists (bs : list bracket) (f : Q -> Q),
    tax_brackets c = Some bs /\
    (forall x, eval (calculate_tax x) c = Ok (f x)) /\
    non_decreasing f /\
    (forall x0, 0 <= x0 -> continuous_at f x0) /\
    linear_on_brackets bs f.
Proof.
  intros Hc. destruct (supported_table_ok y c Hc) as (bs & -> & Hok & Hs).
  destruct (constructed y _ Hc) as [Hy (bs' & [= <-] & Hbs)].
  exists bs, (fun x => fold_left (tax_step x) bs 0).
  split; [reflexivity|]. split; [reflexivity|]. split; [|split].
  - intros x x' _ Hx. apply fold_tax_step_mono; [assumption|assumption|lra].
  - intros x0 _. now apply tax_continuous.
  - now apply (supported_table_linear y (Some bs)).
Qed.

Lemma calculate_tax_continuous_monotone_witness :
  exists (bs : list bracket) (f : Q -> Q),
    tax_brackets (built 2023) = Some bs /\
    (forall x, eval (calculate_tax x) (built 2023) = Ok (f x)) /\
    non_decreasing f /\
    (forall x0, 0 <= x0 -> continuous_at f x0) /\
    linear_on_brackets bs f.
Proof.
  apply (calculate_tax_continuous_monotone 2023 (built 2023)). reflexivity.
Defined.

(** *** Determinism and absence of side effects *)

Lemma read_only_ret {A} (a : A) : read_only (ret a).
Proof. intros self. reflexivity. Qed.

Lemma read_only_raise {A} (e : exn) : read_only (@raise A e).
Proof. intros self. reflexivity. Qed.

Lemma read_only_self_year : read_only self_year.
Proof. intros self. unfold exec, self_year. now destruct (year self). Qed.

Lemma read_only_self_tax_brackets : read_only self_tax_brackets.
Proof.
  intros self. unfold exec, self_tax_brackets. now destruct (tax_brackets self).
Qed.

Lemma read_only_bind {A B} (m : method A) (k : A -> method B) :
  read_only m -> (forall a, read_only (k a)) -> read_only (bind m k).
Proof.
  intros Hm Hk self. specialize (Hm self). unfold exec, bind in *.
  destruct (m self) as [[a|e] self']; simpl in Hm; subst self'.
  - apply Hk.
  - reflexivity.
Qed.

Ltac read_only_steps :=
  repeat first
    [ apply read_only_ret | apply read_only_raise
    | apply read_only_self_year | apply read_only_self_tax_brackets
    | apply read_only_bind
    | match goal with
      | |- forall _, _ => intro
      | |- read_only (if ?b then _ else _) => destruct b
      | |- read_only (let '(_, _) := ?p in _) => destruct p
      end ].

Lemma read_only_calculate_tax (x : Q) : read_only (calculate_tax x).
Proof. unfold calculate_tax. read_only_steps. Qed.

Lemma read_only_calculate_tax_reduction (x : Q) :
  read_only (calculate_tax_reduction x).
Proof. unfold calculate_tax_reduction. read_only_steps. Qed.

Lemma read_only_calculate_total_tax (x : Q) : read_only (calculate_total_tax x).
Proof.
  unfold calculate_total_tax.
  pose proof (read_only_calculate_tax x).
  pose proof (read_only_calculate_tax_reduction x).
  read_only_steps; assumption.
Qed.

Lemma read_only_run {A} (m : method A) (self : calculator) :
  read_only m -> m self = (eval m self, self).
Proof.
  intros H. specialize (H self). unfold exec, eval in *.
  destruct (m self) as [r self']. simpl in *. now subst.
Qed.

Lemma py_min_compat (x x' : Q) (m : bound) :
  x == x' -> py_min x m == py_min x' m.
Proof. intros Hx. destruct m; simpl; qcases; lra. Qed.

Lemma tax_step_compat (b : bracket) (x x' a a' : Q) :
  x == x' -> a == a' -> tax_step x a b == tax_step x' a' b.
Proof.
  intros Hx Ha. unfold tax_step.
  pose proof (py_min_compat x x' (bmax b) Hx) as Hm.
  qcases; rewrite ?Hm, Ha; reflexivity.
Qed.

Lemma fold_tax_step_compat (bs : list bracket) (x x' : Q) :
  x == x' -> forall a a', a == a' ->
    fold_left (tax_step x) bs a == fold_left (tax_step x') bs a'.
Proof.
  intros Hx. induction bs as [|b bs IH]; intros a a' Ha.
  - exact Ha.
  - cbn [fold_left]. apply IH. now apply tax_step_compat.
Qed.

Lemma result_eq_refl (r : result Q) : result_eq r r.
Proof. destruct r; simpl; reflexivity. Qed.

Lemma calculate_tax_compat (self : calculator) (x x' : Q) :
  x == x' ->
  result_eq (eval (calculate_tax x) self) (eval (calculate_tax x') self).
Proof.
  intros Hx. destruct self as [y [bs|]].
  - unfold eval. rewrite !calculate_tax_run. cbn [fst result_eq].
    apply fold_tax_step_compat; [assumption | reflexivity].
  - reflexivity.
Qed.

Lemma calculate_tax_reduction_compat (self : calculator) (x x' : Q) :
  x == x' ->
  result_eq (eval (calculate_tax_reduction x) self)
            (eval (calculate_tax_reduction x') self).
Proof.
  intros Hx. destruct self as [[y|] tb]; [|reflexivity].
  cbv [eval calculate_tax_reduction bind self_year fst year].
  destruct (y =? 2023)%Z; [|destruct (y =? 2024)%Z];
    cbn [ret raise result_eq]; try reflexivity;
    rewrite <- (Qleb_comp x x' Hx _ _ (Qeq_refl _));
    destruct (Qle_bool x _); cbv [ret result_eq]; lra.
Qed.

Lemma calculate_total_tax_compat (self : calculator) (x x' : Q) :
  x == x' ->
  result_eq (eval (calculate_total_tax x) self)
            (eval (calculate_total_tax x') self).
Proof.
  intros Hx.
  pose proof (calculate_tax_compat self x x' Hx) as Ht.
  pose proof (calculate_tax_reduction_compat self x x' Hx) as Hr.
  unfold eval. unfold calculate_total_tax, bind.
  rewrite !(read_only_run _ self (read_only_calculate_tax _)).
  destruct (eval (calculate_tax x) self) as [t|e],
           (eval (calculate_tax x') self) as [t'|e'];
    simpl in Ht; try contradiction; [|exact Ht].
  rewrite !(read_only_run _ self (read_only_calculate_tax_reduction _)).
  destruct (eval (calculate_tax_reduction x) self) as [r|e],
           (eval (calculate_tax_reduction x') self) as [r'|e'];
    simpl in Hr; try contradiction; simpl; [lra | exact Hr].
Qed.

Lemma deterministic_pure_intro (m : Q -> method Q) :
  (forall x, read_only (m x)) ->
  (forall self x x', x == x' -> result_eq (eval (m x) self) (eval (m x') self)) ->
  deterministic_pure m.
Proof.
  intros Hro Hc self x x' Hx. rewrite (Hro x self).
  split; [reflexivity|]. split; [reflexivity|]. now apply Hc.
Qed.

(** C4. Evaluation is deterministic and side-effect-free:
    [calculate_total_tax], [calculate_tax] and [calculate_tax_reduction]
    return identical results when called twice on equal inputs, and a call
    leaves the calculator ([year], [tax_brackets]) as it was. *)
Theorem evaluation_deterministic :
  deterministic_pure calculate_total_tax /\
  deterministic_pure calculate_tax /\
  deterministic_pure calculate_tax_reduction.
Proof.
  split; [|split]; apply deterministic_pure_intro;
    auto using read_only_calculate_total_tax, read_only_calculate_tax,
      read_only_calculate_tax_reduction, calculate_total_tax_compat,
      calculate_tax_compat, calculate_tax_reduction_compat.
Qed.

Lemma evaluation_deterministic_witness :
  let m := calculate_total_tax in
  exec (m 80000) (built 2023) = built 2023 /\
  eval (m 80000) (exec (m 80000) (built 2023)) = eval (m 80000) (built 2023) /\
  result_eq (eval (m 80000) (built 2023))
            (eval (m (160000 # 2)) (exec (m 80000) (built 2023))).
Proof.
  apply (proj1 evaluation_deterministic (built 2023) 80000 (160000 # 2)).
  reflexivity.
Defined.

End QuebecTaxProofs.

(** ** Properties of the test-case generator *)

Module TestCasesProofs.

Import TestCases.
Local Open Scope Z_scope.

Section GeneratorProofs.

Context `{RandomSource}.

Local Notation "x <- m ;; k" := (gen_bind m (fun x => k))
  (at level 100, m at next level, right associativity).

(** *** Drawing from a candidate list *)

Lemma choice_ok {A} (l : list A) (s : rng) :
  l <> [] -> exists a s', choice l s = Ok (a, s') /\ In a l.
Proof.
  intros Hl. unfold choice. destruct l as [|x l']; [congruence|].
  set (l := x :: l').
  pose proof (randbelow_lt (length l) s ltac:(simpl; lia)) as Hlt.
  destruct (randbelow (length l) s) as [i s']. cbn [fst] in Hlt.
  destruct (nth_error l i) as [a|] eqn:E.
  - exists a, s'. split; [reflexivity|]. now apply nth_error_In with i.
  - apply nth_error_None in E. lia.
Qed.

Lemma bind_choice {A B} (l : list A) (k : A -> gen B) (s : rng) :
  l <> [] -> exists a s', In a l /\ gen_bind (choice l) k s = k a s'.
Proof.
  intros Hl. destruct (choice_ok l s Hl) as (a & s' & E & Ha).
  exists a, s'. split; [exact Ha|]. unfold gen_bind. now rewrite E.
Qed.

Ltac candidates_nonempty :=
  repeat match goal with
    | |- context [if ?b then _ else _] => destruct b
    end;
  discriminate.

(** Take the next draw of the program in the goal. *)
Ltac draw a s' Ha :=
  match goal with
  | |- context [gen_bind (choice ?l) ?k ?s] =>
      let E := fresh "E" in
      let Hne := fresh "Hne" in
      assert (Hne : l <> []) by candidates_nonempty;
      destruct (bind_choice l k s Hne) as (a & s' & Ha & E);
      rewrite E; clear E Hne
  end.

(** *** Keys of a case *)

Lemma child_keys_disjoint (i j : Z) (k : string) :
  In k (child_keys i) -> In k (child_keys j) -> i = j.
Proof.
  unfold child_keys, age_enfant_key, frais_key, type_garde_key.
  cbn [In]. intros Hi Hj.
  assert (Hinj : forall p (a b : Z), p +:+ pretty a = p +:+ pretty b -> a = b).
  { intros p a b E. apply (inj (String.app p)) in E. now apply (inj pretty). }
  destruct Hi as [<- | [<- | [<- | []]]]; destruct Hj as [E | [E | [E | []]]];
    solve [ now apply Hinj in E | now apply Hinj in E | discriminate E ].
Qed.

Lemma child_keys_not_base (i : Z) (k : string) :
  In k (child_keys i) -> ~ In k base_keys.
Proof.
  unfold child_keys, base_keys, age_enfant_key, frais_key, type_garde_key.
  cbn [In]. intros Hi Hb.
  destruct Hi as [<- | [<- | [<- | []]]];
    repeat (destruct Hb as [Hb | Hb]; [discriminate Hb|]); exact Hb.
Qed.

(** *** The attributes of one child *)

Lemma child_ok_ext (case case' : gmap string value) (i : Z) :
  (forall k, In k (child_keys i) -> case' !! k = case !! k) ->
  child_ok case i -> child_ok case' i.
Proof.
  intros Hk (a & Ha & Hage & Hrest). exists a. split; [exact Ha|].
  rewrite ?Hk by (cbn; auto). split; [exact Hage|].
  destruct (a <=? 5).
  - destruct Hrest as (f & t & ? & ? & ? & ?). exists f, t.
    rewrite ?Hk by (cbn; auto). auto.
  - exact Hrest.
Qed.

Lemma child_keys_distinct (i : Z) :
  age_enfant_key i <> frais_key i /\ age_enfant_key i <> type_garde_key i /\
  frais_key i <> type_garde_key i.
Proof. repeat split; discriminate. Qed.

Lemma child_attributes_spec (i : Z) (case : gmap string value) (s : rng) :
  exists case' s',
    child_attributes i case s = Ok (case', s') /\
    child_ok case' i /\
    forall k, ~ In k (child_keys i) -> case' !! k = case !! k.
Proof.
  destruct (child_keys_distinct i) as (Haf & Hat & Hft).
  assert (Hout : forall k, ~ In k (child_keys i) ->
            k <> age_enfant_key i /\ k <> frais_key i /\ k <> type_garde_key i).
  { unfold child_keys. cbn [In]. intros k Hk. repeat split; intros ->; tauto. }
  unfold child_attributes. draw a s1 Ha.
  destruct (a <=? 5) eqn:E.
  - draw f s2 Hf. draw t s3 Ht. do 2 eexists. split; [reflexivity|]. split.
    + exists a. split; [exact Ha|]. rewrite E.
      split; [by simplify_map_eq|]. exists f, t.
      repeat split; try assumption; by simplify_map_eq.
    + intros k Hk. destruct (Hout k Hk) as (? & ? & ?). by simplify_map_eq.
  - do 2 eexists. split; [reflexivity|]. split.
    + exists a. split; [exact Ha|]. rewrite E.
      repeat split; by simplify_map_eq.
    + intros k Hk. destruct (Hout k Hk) as (? & ? & ?). by simplify_map_eq.
Qed.

Lemma children_loop_spec (xs : list Z) (case : gmap string value) (s : rng) :
  exists case' s',
    for_each xs child_attributes case s = Ok (case', s') /\
    (forall i, In i xs -> child_ok case' i) /\
    (forall k, (forall i, In i xs -> ~ In k (child_keys i)) ->
               case' !! k = case !! k).
Proof.
  revert case s. induction xs as [|x xs IH]; intros case s.
  - exists case, s. split; [reflexivity|]. split; [intros i []|reflexivity].
  - cbn [for_each]. unfold gen_bind at 1.
    destruct (child_attributes_spec x case s) as (c1 & s1 & -> & Hok1 & Hun1).
    destruct (IH c1 s1) as (c2 & s2 & E2 & Hok2 & Hun2).
    exists c2, s2. split; [exact E2|]. split.
    + intros i [<- | Hi]; [|now apply Hok2].
      destruct (in_dec Z.eq_dec x xs) as [Hin | Hnin]; [now apply Hok2|].
      apply child_ok_ext with c1; [|exact Hok1].
      intros k Hk. apply Hun2. intros j Hj Hkj.
      assert (x = j) by (now apply child_keys_disjoint with k).
      subst j. contradiction.
    + intros k Hk. rewrite Hun2 by (intros i Hi; apply Hk; now right).
      apply Hun1. apply Hk. now left.
Qed.

(** *** One generated case *)

Lemma base_case_adults situation revenu1 age1 revenu2 age2 n :
  adults_of (base_case situation revenu1 age1 revenu2 age2 n)
            situation revenu1 age1 revenu2 age2 n.
Proof. unfold adults_of, base_case. repeat split; by simplify_map_eq. Qed.

Lemma base_case_other situation revenu1 age1 revenu2 age2 n (k : string) :
  ~ In k base_keys ->
  base_case situation revenu1 age1 revenu2 age2 n !! k = None.
Proof.
  unfold base_keys, base_case. cbn [In]. intros Hk.
  rewrite !lookup_insert_ne by (intros E; apply Hk; rewrite <- E; auto 10).
  apply lookup_empty.
Qed.

Lemma adults_of_ext (case case' : gmap string value)
    situation revenu1 age1 revenu2 age2 n :
  (forall k, In k base_keys -> case' !! k = case !! k) ->
  adults_of case situation revenu1 age1 revenu2 age2 n ->
  adults_of case' situation revenu1 age1 revenu2 age2 n.
Proof.
  unfold adults_of, base_keys. intros Hk H0.
  rewrite !Hk by (cbn; tauto). exact H0.
Qed.

Lemma generate_case_spec (s : rng) :
  exists case s', generate_case s = Ok (case, s') /\ case_ok case.
Proof.
  unfold generate_case.
  draw situation s0 Hsit. draw revenu1 s0' Hr1. draw age1 s1 Ha1.
  assert (Hadults : exists revenu2 age2 s2,
            (if est_couple situation
             then In revenu2 revenus /\ In age2 (adult_ages situation)
             else revenu2 = 0 /\ age2 = 0) /\
            forall B (k : Z -> Z -> gen B),
              (revenu2 <- (if est_couple situation
                           then choice revenus else gen_ret 0) ;;
               age2 <- (if est_couple situation
                        then choice (if est_retraite situation
                                     then ages_retraite else ages_travailleur)
                        else gen_ret 0) ;;
               k revenu2 age2) s1 = k revenu2 age2 s2).
  { destruct (est_couple situation).
    - destruct (choice_ok revenus s1 ltac:(discriminate)) as (r2 & t & E & Hr2).
      destruct (choice_ok (adult_ages situation) t
                  ltac:(unfold adult_ages; destruct (est_retraite situation);
                        discriminate)) as (a2 & t' & E' & Ha2).
      exists r2, a2, t'. split; [auto|]. intros B k.
      unfold gen_bind at 1. rewrite E. unfold gen_bind at 1.
      unfold adult_ages in E'. now rewrite E'.
    - exists 0, 0, s1. split; [auto|]. reflexivity. }
  destruct Hadults as (revenu2 & age2 & s2 & Hsecond & Hrun).
  rewrite Hrun. clear Hrun.
  fold (base_case situation revenu1 age1 revenu2 age2 0).
  destruct (peut_avoir_enfants situation) eqn:Hpeut.
  - draw n s3 Hn.
    unfold base_case. rewrite insert_insert_eq.
    fold (base_case situation revenu1 age1 revenu2 age2 n).
    destruct (children_loop_spec (range 1 (n + 1))
                (base_case situation revenu1 age1 revenu2 age2 n) s3)
      as (case & s' & -> & Hok & Hun).
    exists case, s'. split; [reflexivity|].
    exists situation, revenu1, age1, revenu2, age2, n.
    split; [|do 5 (split; [assumption|]); split; [congruence|]; split].
    + apply adults_of_ext
        with (base_case situation revenu1 age1 revenu2 age2 n);
        [|apply base_case_adults].
      intros k Hk. apply Hun. intros i _ Hki.
      now apply (child_keys_not_base i k).
    + exact Hok.
    + intros i k Hi Hk. rewrite Hun.
      * apply base_case_other. now apply (child_keys_not_base i).
      * intros j Hj Hkj.
        assert (i = j) by (now apply child_keys_disjoint with k).
        subst j. contradiction.
  - exists (base_case situation revenu1 age1 revenu2 age2 0), s2.
    split; [reflexivity|].
    exists situation, revenu1, age1, revenu2, age2, 0.
    split; [apply base_case_adults|].
    do 4 (split; [assumption|]).
    split; [vm_compute; now left|]. split; [reflexivity|]. split.
    + intros i [].
    + intros i k _ Hk. apply base_case_other.
      now apply (child_keys_not_base i).
Qed.

(** *** The whole run *)

Lemma main_loop_spec {A} (xs : list A) (acc : list (gmap string value)) (s : rng) :
  exists new s',
    for_each xs (fun _ test_cases =>
                   case <- generate_case ;; gen_ret (test_cases ++ [case])) acc s
      = Ok (acc ++ new, s') /\
    length new = length xs /\
    Forall case_ok new.
Proof.
  revert acc s. induction xs as [|x xs IH]; intros acc s.
  - exists [], s. rewrite app_nil_r. repeat split. constructor.
  - cbn [for_each]. unfold gen_bind at 1 2.
    destruct (generate_case_spec s) as (case & s1 & -> & Hcase).
    cbn [gen_ret]. destruct (IH (acc ++ [case]) s1) as (new & s' & -> & Hlen & Hall).
    exists (case :: new), s'. rewrite <- app_assoc. cbn [app length].
    split; [reflexivity|]. split; [now rewrite Hlen|]. now constructor.
Qed.

Lemma generate_test_cases_spec (nobs : Z) (s : rng) :
  exists cases s',
    generate_test_cases nobs s = Ok (cases, s') /\
    length cases = Z.to_nat nobs /\
    Forall case_ok cases.
Proof.
  unfold generate_test_cases.
  destruct (main_loop_spec (range 0 nobs) [] s) as (new & s' & E & Hlen & Hall).
  exists new, s'. split; [exact E|]. split; [|exact Hall].
  rewrite Hlen. unfold range. rewrite length_map, length_seq. f_equal. lia.
Qed.

(** *** Household types *)

Lemma flags_of_situation (situation : string) :
  In situation situations ->
  (peut_avoir_enfants situation = false <-> childless_situation situation) /\
  (est_couple situation = true <-> couple_situation situation) /\
  (est_retraite situation = true <-> retired_situation situation).
Proof.
  unfold childless_situation, couple_situation, retired_situation, situations.
  cbn [In]. intros Hs.
  repeat (destruct Hs as [<- | Hs]); [ .. | destruct Hs ];
    vm_compute; repeat split; intros Hx;
    try discriminate Hx; try reflexivity; auto;
    repeat (destruct Hx as [Hx | Hx]; try discriminate Hx).
Qed.

Lemma case_ok_invariants (case : gmap string value) :
  case_ok case -> invariants_kept case.
Proof.
  intros (situation & revenu1 & age1 & revenu2 & age2 & n & Had & Hsit & _ & _
          & _ & _ & Hnone & Hchildren & Hothers).
  destruct Had as (Hs & _ & _ & _ & _ & Hn).
  split.
  - intros situation' Hs' Hless. rewrite Hs in Hs'. injection Hs' as <-.
    apply (flags_of_situation situation Hsit) in Hless.
    rewrite (Hnone Hless) in *. split; [exact Hn|].
    intros i k Hk. apply (Hothers i k); [intros []|exact Hk].
  - intros i a Hage.
    destruct (in_dec Z.eq_dec i (range 1 (n + 1))) as [Hi | Hi].
    + destruct (Hchildren i Hi) as (a' & _ & Hage' & Hrest).
      rewrite Hage in Hage'. injection Hage' as <-.
      destruct (Z.leb_spec a 5); split; intros; (exact Hrest || lia).
    + rewrite (Hothers i (age_enfant_key i) Hi) in Hage by (cbn; auto).
      discriminate.
Qed.

Lemma case_ok_adults (case : gmap string value) :
  case_ok case -> adults_match_type case.
Proof.
  intros (situation & revenu1 & age1 & revenu2 & age2 & n & Had & Hsit & Hr1
          & Ha1 & Hsecond & _).
  exists situation, revenu1, age1, revenu2, age2, n.
  split; [exact Had|]. split; [exact Hsit|].
  destruct (flags_of_situation situation Hsit) as (_ & Hc & Hr).
  unfold adult_ages in *.
  destruct (est_couple situation).
  - destruct Hsecond as [Hr2 Ha2]. split; [intros Hn; tauto|].
    intros _. split; [exact Hr1|]. split; [exact Hr2|].
    destruct (est_retraite situation).
    + split; [auto | intros Hn; tauto].
    + split; [intros Hx; apply Hr in Hx; discriminate | auto].
  - split; [intros _; exact Hsecond|].
    intros Hx. apply Hc in Hx. discriminate.
Qed.

(** *** Properties of every generated case *)

(** C7, amended. Every run of [generate_test_cases] returns its cases, and
    each of them keeps the structural invariants: a case whose situation is
    'Personne vivant seule', 'Retraité vivant seul' or 'Couple de retraités'
    has [nb_enfants = 0] and no child attribute; the fee and the care type of
    a child of at most 5 come from the candidate lists, and a child older
    than 5 carries the fixed fee 0 and the fixed care type 'Subventionnée'. *)
Theorem generated_cases_invariants (nobs : Z) (s : rng) :
  exists cases s',
    generate_test_cases nobs s = Ok (cases, s') /\
    length cases = Z.to_nat nobs /\
    Forall invariants_kept cases.
Proof.
  destruct (generate_test_cases_spec nobs s) as (cases & s' & E & Hlen & Hall).
  exists cases, s'. split; [exact E|]. split; [exact Hlen|].
  revert Hall. apply List.Forall_impl. exact case_ok_invariants.
Qed.

(** C10. In every generated case the adults match the household type: a
    case that is not a couple has [revenu2 = 0] and [age2 = 0]; a couple has
    both incomes from [revenus] and both ages from {65, 75, 85} when retired
    and from {25, 35, 45, 55} otherwise. *)
Theorem generated_adults_match_type (nobs : Z) (s : rng) :
  exists cases s',
    generate_test_cases nobs s = Ok (cases, s') /\
    length cases = Z.to_nat nobs /\
    Forall adults_match_type cases.
Proof.
  destruct (generate_test_cases_spec nobs s) as (cases & s' & E & Hlen & Hall).
  exists cases, s'. split; [exact E|]. split; [exact Hlen|].
  revert Hall. apply List.Forall_impl. exact case_ok_adults.
Qed.


End GeneratorProofs.

(** *** A sample run *)

(** The run of one case seeded with 31: a couple with one child aged 10. *)
Example run_seeded_31 :
  let case := hd ∅ (produced (@seeded_run lcg 31 1 0)) in
  length (produced (@seeded_run lcg 31 1 0)) = 1%nat /\
  case !! "situation" = Some (VStr "Couple") /\
  case !! "nb_enfants" = Some (VInt 1) /\
  case !! "age_enfant1" = Some (VInt 10) /\
  case !! "frais1" = Some (VInt 0) /\
  case !! "type_garde1" = Some (VStr "Subventionnée").
Proof. vm_compute. repeat split. Qed.

(** C7, as stated, fails: the run seeded with 31 draws a 'Couple' with one
    child aged 10, and the case holds [frais1 = 0] and
    [type_garde1 = 'Subventionnée']. *)
Lemma older_child_has_care_attributes :
  ~ Forall invariants_as_stated (produced (@seeded_run lcg 31 1 0)).
Proof.
  intros HF.
  assert (Hage : hd ∅ (produced (@seeded_run lcg 31 1 0)) !! age_enfant_key 1
                 = Some (VInt 10)) by (vm_compute; reflexivity).
  assert (Htype : hd ∅ (produced (@seeded_run lcg 31 1 0)) !! type_garde_key 1
                  = Some (VStr "Subventionnée")) by (vm_compute; reflexivity).
  destruct (produced (@seeded_run lcg 31 1 0)) as [|case cases].
  - cbn [hd] in Hage. rewrite lookup_empty in Hage. discriminate.
  - cbn [hd] in Hage, Htype. apply Forall_inv in HF. destruct HF as [_ Hclaim].
    destruct (Hclaim 1 10 Hage ltac:(lia)) as [_ Hnone].
    rewrite Htype in Hnone. discriminate.
Qed.

Lemma generated_cases_invariants_witness :
  exists cases s',
    @generate_test_cases lcg 5 31 = Ok (cases, s') /\
    length cases = Z.to_nat 5 /\
    Forall invariants_kept cases.
Proof. exact (@generated_cases_invariants lcg 5 31). Defined.

Lemma generated_adults_match_type_witness :
  exists cases s',
    @generate_test_cases lcg 5 31 = Ok (cases, s') /\
    length cases = Z.to_nat 5 /\
    Forall adults_match_type cases.
Proof. exact (@generated_adults_match_type lcg 5 31). Defined.


End TestCasesProofs.

(** ** Further properties of the income tax calculator *)

Module QuebecTaxExtras.

Import QuebecTax QuebecTaxProofs.
Local Open Scope Q_scope.

Lemma built_table (y : Z) (c : calculator) :
  QuebecIncomeTaxCalculator y = Ok c ->
  supported y /\ c = built y.
Proof.
  intros Hc. destruct (constructed y c Hc) as [Hy _]. split; [exact Hy|].
  unfold built. now rewrite Hc.
Qed.

Ltac table_cases Hc :=
  let Hy := fresh "Hy" in
  apply built_table in Hc; destruct Hc as [Hy ->];
  destruct Hy as [-> | ->].

Ltac run_tax :=
  cbv [built QuebecIncomeTaxCalculator __init__ bind set_year get_tax_brackets
       self_year fresh year tax_brackets set_tax_brackets ret raise eval fst
       calculate_tax self_tax_brackets calculate_total_tax
       calculate_tax_reduction Z.eqb Pos.eqb];
  cbn [fold_left]; unfold tax_step, py_min; cbn [bmin bmax rate].

(** X1. Marginal rates: between two non-negative incomes the tax grows by at
    least 15% and at most 25.75% of the difference. *)
Theorem marginal_rate_bounds (y : Z) (c : calculator) (x x' : Q) :
  QuebecIncomeTaxCalculator y = Ok c ->
  0 <= x -> x <= x' ->
  exists t t',
    eval (calculate_tax x) c = Ok t /\
    eval (calculate_tax x') c = Ok t' /\
    0.15 * (x' - x) <= t' - t /\ t' - t <= 0.2575 * (x' - x).
Proof.
  intros Hc Hx Hxx. table_cases Hc; do 2 eexists;
    (split; [reflexivity|]); (split; [reflexivity|]);
    cbn [fold_left]; unfold tax_step, py_min; cbn [bmin bmax rate];
    qcases; lra.
Qed.

Lemma marginal_rate_bounds_witness :
  exists t t',
    eval (calculate_tax 40000) (built 2023) = Ok t /\
    eval (calculate_tax 100000) (built 2023) = Ok t' /\
    0.15 * (100000 - 40000) <= t' - t /\ t' - t <= 0.2575 * (100000 - 40000).
Proof.
  apply (marginal_rate_bounds 2023 (built 2023) 40000 100000);
    [reflexivity | lra | lra].
Defined.

(** The three amounts of a calculator built for a supported year. *)
Lemma amounts_run (y : Z) (x : Q) :
  supported y ->
  exists bs,
    tax_brackets (built y) = Some bs /\
    eval (calculate_tax x) (built y) = Ok (fold_left (tax_step x) bs 0) /\
    eval (calculate_tax_reduction x) (built y) =
      Ok (if Qle_bool x (reduction_threshold y)
          then x * 0.165 else reduction_threshold y * 0.165) /\
    eval (calculate_total_tax x) (built y) =
      Ok (fold_left (tax_step x) bs 0 -
          (if Qle_bool x (reduction_threshold y)
           then x * 0.165 else reduction_threshold y * 0.165)).
Proof.
  intros Hy.
  assert (Hb : exists bs, built y = Calculator (Some y) (Some bs))
    by (destruct Hy as [-> | ->]; eexists; reflexivity).
  destruct Hb as [bs ->]. exists bs. split; [reflexivity|].
  split; [reflexivity|]. split.
  - now apply calculate_tax_reduction_supported.
  - now apply total_tax_run.
Qed.

Ltac amounts y x :=
  let bs := fresh "bs" in
  let Hbs := fresh "Hbs" in
  let Ht := fresh "Ht" in
  let Hr := fresh "Hr" in
  let Htot := fresh "Htot" in
  destruct (amounts_run y x ltac:(unfold supported; auto))
    as (bs & Hbs & Ht & Hr & Htot);
  injection Hbs as <-;
  rewrite ?Ht, ?Hr, ?Htot; clear Ht Hr Htot.

Ltac unfold_amounts :=
  unfold reduction_threshold in *; cbn [Z.eqb Pos.eqb] in *;
  cbn [fold_left]; unfold tax_step, py_min; cbn [bmin bmax rate].







(** X5. Indexation: at every income the 2024 calculator asks no more tax than
    the 2023 one, grants at least the same reduction, and so ends with a
    total that is no higher. *)
Theorem year_2024_not_above_2023 (x : Q) :
  exists t23 t24 r23 r24 tot23 tot24,
    eval (calculate_tax x) (built 2023) = Ok t23 /\
    eval (calculate_tax x) (built 2024) = Ok t24 /\
    eval (calculate_tax_reduction x) (built 2023) = Ok r23 /\
    eval (calculate_tax_reduction x) (built 2024) = Ok r24 /\
    eval (calculate_total_tax x) (built 2023) = Ok tot23 /\
    eval (calculate_total_tax x) (built 2024) = Ok tot24 /\
    t24 <= t23 /\ r23 <= r24 /\ tot24 <= tot23.
Proof.
  amounts 2023%Z x. amounts 2024%Z x. do 6 eexists.
  do 6 (split; [reflexivity|]).
  unfold_amounts; qcases; repeat split; lra.
Qed.

(** X6. The bracket table is fixed at construction.  After [self.year = y'] on
    a calculator built for [y], [calculate_tax] still answers from the table
    of [y], while [calculate_tax_reduction] follows [y']: for a supported
    [y'] the total mixes the two years, and for any other [y'] the total
    raises although [calculate_tax] still returns. *)
Theorem year_reassigned_after_construction
    (y y' : Z) (c : calculator) (x : Q) :
  QuebecIncomeTaxCalculator y = Ok c ->
  let c' := exec (set_year y') c in
  tax_brackets c' = tax_brackets c /\
  exists t,
    eval (calculate_tax x) c = Ok t /\
    eval (calculate_tax x) c' = Ok t /\
    (supported y' ->
       exists r, eval (calculate_tax_reduction x) (built y') = Ok r /\
                 eval (calculate_tax_reduction x) c' = Ok r /\
                 eval (calculate_total_tax x) c' = Ok (t - r)) /\
    (~ supported y' ->
       eval (calculate_total_tax x) c' = Raise year_not_supported).
Proof.
  intros Hc c'. destruct (constructed y c Hc) as [Hy (bs & -> & _)].
  subst c'. cbv [exec set_year snd year tax_brackets].
  split; [reflexivity|]. exists (fold_left (tax_step x) bs 0).
  split; [reflexivity|]. split; [reflexivity|]. split.
  - intros Hy'. eexists. split; [|split].
    + destruct (amounts_run y' x Hy') as (bs' & _ & _ & -> & _). reflexivity.
    + now apply calculate_tax_reduction_supported.
    + now apply total_tax_run.
  - intros Hy'.
    pose proof (calculate_tax_reduction_unsupported y'
                  (Calculator (Some y') (Some bs)) x eq_refl Hy') as Hr.
    unfold eval in *. unfold calculate_total_tax, bind.
    rewrite calculate_tax_run.
    destruct (calculate_tax_reduction x _) as [r self']. cbn [fst] in Hr.
    now subst r.
Qed.

Lemma year_reassigned_after_construction_witness :
  let c' := exec (set_year 2024) (built 2023) in
  tax_brackets c' = tax_brackets (built 2023) /\
  exists t,
    eval (calculate_tax 80000) (built 2023) = Ok t /\
    eval (calculate_tax 80000) c' = Ok t /\
    (supported 2024 ->
       exists r, eval (calculate_tax_reduction 80000) (built 2024) = Ok r /\
                 eval (calculate_tax_reduction 80000) c' = Ok r /\
                 eval (calculate_total_tax 80000) c' = Ok (t - r)) /\
    (~ supported 2024 ->
       eval (calculate_total_tax 80000) c' = Raise year_not_supported).
Proof.
  apply (year_reassigned_after_construction 2023 2024 (built 2023) 80000).
  reflexivity.
Defined.

End QuebecTaxExtras.

(** ** Further properties of the test-case generator *)

Module TestCasesExtras.

Import TestCases TestCasesProofs GeneratedCases.
Local Open Scope Z_scope.
Local Set Warnings "-clear-no-such-hyp".

Section GeneratorExtras.

Context `{RandomSource}.

Ltac run_step H a s' E :=
  match type of H with
  | match ?m with Ok _ => _ | Raise _ => _ end = Ok _ =>
      destruct m as [[a s']|?] eqn:E; [|discriminate H]
  end.

Lemma choice_In {A} (l : list A) (s s' : rng) (a : A) :
  choice l s = Ok (a, s') -> In a l.
Proof.
  destruct l as [|x l]; [discriminate|]. intros E.
  destruct (choice_ok (x :: l) s ltac:(discriminate)) as (a' & s'' & E' & Ha).
  rewrite E in E'. now injection E' as -> _.
Qed.

Lemma for_each_app {A S} (xs ys : list A) (body : A -> S -> gen S)
    (acc : S) (s : rng) :
  for_each (xs ++ ys) body acc s =
  gen_bind (for_each xs body acc) (for_each ys body) s.
Proof.
  revert acc s. induction xs as [|x xs IH]; intros acc s; [reflexivity|].
  cbn [app for_each]. unfold gen_bind in *.
  destruct (body x acc s) as [[acc' s']|e]; [apply IH | reflexivity].
Qed.

Lemma gen_bind_ext {A B} (m : gen A) (k k' : A -> gen B) (s : rng) :
  (forall a s', k a s' = k' a s') -> gen_bind m k s = gen_bind m k' s.
Proof. intros Hk. unfold gen_bind. destruct (m s) as [[a s']|e]; auto. Qed.

(** The loop does not look at its index. *)
Lemma main_loop_index (xs ys : list Z) (acc : list (gmap string value))
    (s : rng) :
  length xs = length ys ->
  for_each xs append_case acc s = for_each ys append_case acc s.
Proof.
  revert ys acc s. induction xs as [|x xs IH]; intros [|y ys] acc s Hlen;
    try discriminate Hlen; [reflexivity|].
  cbn [for_each]. change (append_case y acc) with (append_case x acc).
  apply gen_bind_ext. intros acc' s'. apply IH. now injection Hlen.
Qed.

Lemma main_loop_cons (x : Z) (xs : list Z) (acc : list (gmap string value))
    (s : rng) :
  for_each (x :: xs) append_case acc s =
  match generate_case s with
  | Ok (case, s1) => for_each xs append_case (acc ++ [case]) s1
  | Raise e => Raise e
  end.
Proof.
  cbn [for_each].
  change (append_case x acc)
    with (gen_bind generate_case (fun case => gen_ret (acc ++ [case]))).
  unfold gen_bind, gen_ret.
  destruct (generate_case s) as [[case s1]|e]; reflexivity.
Qed.

(** Starting the loop from [acc] only prefixes what it appends. *)
Lemma main_loop_shift (xs : list Z) (acc : list (gmap string value)) (s : rng) :
  for_each xs append_case acc s =
  match for_each xs append_case [] s with
  | Ok (new, s') => Ok (acc ++ new, s')
  | Raise e => Raise e
  end.
Proof.
  revert acc s. induction xs as [|x xs IH]; intros acc s.
  - cbn. now rewrite app_nil_r.
  - rewrite !main_loop_cons.
    destruct (generate_case s) as [[case s1]|e]; [|reflexivity].
    cbn [app]. rewrite (IH (acc ++ [case])), (IH [case]).
    destruct (for_each xs append_case [] s1) as [[new s']|e]; [|reflexivity].
    now rewrite <- app_assoc.
Qed.

Lemma length_range (lo hi : Z) : length (range lo hi) = Z.to_nat (hi - lo).
Proof. unfold range. now rewrite length_map, length_seq. Qed.

Lemma in_range (lo hi i : Z) : In i (range lo hi) <-> lo <= i < hi.
Proof.
  unfold range. rewrite in_map_iff. split.
  - intros (k & <- & Hk). apply in_seq in Hk. lia.
  - intros Hi. exists (Z.to_nat (i - lo)). split; [lia|]. apply in_seq. lia.
Qed.

Lemma generate_as_loop (nobs : Z) (s : rng) :
  generate_test_cases nobs s = for_each (range 0 nobs) append_case [] s.
Proof. reflexivity. Qed.

(** *** Splitting a run *)

(** X7. A run of [m + k] cases is a run of [m] cases followed, from the state it
    leaves, by a run of [k] cases. *)
Theorem generate_test_cases_split (m k : Z) (s : rng) :
  0 <= m -> 0 <= k ->
  exists cases1 s1 cases2 s2,
    generate_test_cases m s = Ok (cases1, s1) /\
    generate_test_cases k s1 = Ok (cases2, s2) /\
    generate_test_cases (m + k) s = Ok (cases1 ++ cases2, s2).
Proof.
  intros Hm Hk.
  destruct (generate_test_cases_spec m s) as (cases1 & s1 & E1 & _).
  destruct (generate_test_cases_spec k s1) as (cases2 & s2 & E2 & _).
  exists cases1, s1, cases2, s2. split; [exact E1|]. split; [exact E2|].
  rewrite generate_as_loop in *.
  rewrite (main_loop_index _ (range 0 m ++ range 0 k))
    by (rewrite length_app, !length_range; lia).
  rewrite for_each_app. unfold gen_bind. rewrite E1.
  rewrite main_loop_shift, E2. reflexivity.
Qed.

(** X8. A count of zero or less gives the empty list and draws nothing. *)
Theorem generate_test_cases_none (nobs : Z) (s : rng) :
  nobs <= 0 -> generate_test_cases nobs s = Ok ([], s).
Proof.
  intros Hn. rewrite generate_as_loop. unfold range.
  replace (Z.to_nat (nobs - 0)) with 0%nat by lia. reflexivity.
Qed.

(** *** Every case of a run *)

Lemma generated_forall (P : gmap string value -> Prop) :
  (forall s case s', generate_case s = Ok (case, s') -> P case) ->
  forall nobs s cases s',
    generate_test_cases nobs s = Ok (cases, s') -> Forall P cases.
Proof.
  intros HP nobs s cases s'. rewrite generate_as_loop.
  generalize (range 0 nobs) as xs. intros xs. revert s cases s'.
  induction xs as [|x xs IH]; intros s cases s' E.
  - injection E as <- _. constructor.
  - rewrite main_loop_cons in E.
    destruct (generate_case s) as [[case s1]|e] eqn:Ec; [|discriminate E].
    rewrite main_loop_shift in E.
    destruct (for_each xs append_case [] s1) as [[new s2]|e] eqn:En;
      [|discriminate E].
    injection E as <- _. cbn [app]. constructor; [now apply (HP s _ s1)|].
    now apply (IH s1 new s2).
Qed.

Lemma generate_case_ok (s : rng) (case : gmap string value) (s' : rng) :
  generate_case s = Ok (case, s') -> case_ok case.
Proof.
  intros E. destruct (generate_case_spec s) as (case' & s'' & E' & Hok).
  rewrite E in E'. now injection E' as -> _.
Qed.

Lemma child_attributes_dom (i : Z) (case case' : gmap string value)
    (s s' : rng) :
  child_attributes i case s = Ok (case', s') ->
  dom case' = dom case ∪ list_to_set (child_keys i).
Proof.
  unfold child_attributes, gen_bind, gen_ret. intros E.
  destruct (choice ages_enfant s) as [[a s1]|]; [|discriminate E].
  destruct (a <=? 5).
  - destruct (choice frais_garde s1) as [[f s2]|]; [|discriminate E].
    destruct (choice types_garde s2) as [[t s3]|]; [|discriminate E].
    injection E as <- _. rewrite !dom_insert_L. unfold child_keys. set_solver.
  - injection E as <- _. rewrite !dom_insert_L. unfold child_keys. set_solver.
Qed.

Lemma children_loop_dom (xs : list Z) (case case' : gmap string value)
    (s s' : rng) :
  for_each xs child_attributes case s = Ok (case', s') ->
  dom case' = dom case ∪ list_to_set (flat_map child_keys xs).
Proof.
  revert case s. induction xs as [|x xs IH]; intros case s E.
  - injection E as <- _. cbn. set_solver.
  - cbn [for_each] in E. unfold gen_bind in E.
    destruct (child_attributes x case s) as [[c1 s1]|] eqn:E1;
      [|discriminate E].
    rewrite (IH _ _ E), (child_attributes_dom _ _ _ _ _ E1).
    cbn [flat_map]. rewrite list_to_set_app_L. set_solver.
Qed.

Lemma children_loop_nb (xs : list Z) (case case' : gmap string value)
    (s s' : rng) :
  for_each xs child_attributes case s = Ok (case', s') ->
  case' !! "nb_enfants" = case !! "nb_enfants".
Proof.
  intros E.
  destruct (children_loop_spec xs case s) as (c & s'' & E' & _ & Hun).
  rewrite E in E'. injection E' as <- _. apply Hun.
  intros i _ Hk. apply (child_keys_not_base i _ Hk). cbn. tauto.
Qed.

Lemma keys_size (n : Z) :
  In n [0; 1; 2; 3] ->
  size (list_to_set (base_keys ++ flat_map child_keys (range 1 (n + 1)))
          : gset string)
  = Z.to_nat (6 + 3 * n).
Proof.
  intros Hn.
  assert (Hnd : NoDup (base_keys ++ flat_map child_keys (range 1 (n + 1)))).
  { repeat (destruct Hn as [<- | Hn];
            [apply (bool_decide_unpack _); vm_compute; exact I|]).
    destruct Hn. }
  rewrite (size_list_to_set _ Hnd).
  repeat (destruct Hn as [<- | Hn]; [reflexivity|]). destruct Hn.
Qed.

Lemma generate_case_keys (s : rng) (case : gmap string value) (s' : rng) :
  generate_case s = Ok (case, s') -> exact_keys case.
Proof.
  unfold generate_case, gen_bind. intros E.
  run_step E situation s0 E0. run_step E revenu1 s1 E1.
  run_step E age1 s2 E2. run_step E revenu2 s3 E3. run_step E age2 s4 E4.
  destruct (peut_avoir_enfants situation).
  - run_step E n s5 En.
    assert (Hn : In n [0; 1; 2; 3]) by (now apply choice_In in En).
    exists n. split; [exact Hn|].
    split.
    { rewrite (children_loop_nb _ _ _ _ _ E). apply lookup_insert_eq. }
    assert (Hdom : dom case = list_to_set
              (base_keys ++ flat_map child_keys (range 1 (n + 1)))).
    { rewrite (children_loop_dom _ _ _ _ _ E), list_to_set_app_L.
      rewrite !dom_insert_L, dom_empty_L. unfold base_keys. set_solver. }
    split; [exact Hdom|].
    rewrite <- size_dom, Hdom. now apply keys_size.
  - injection E as <- _. exists 0. split; [cbn; tauto|].
    split; [apply lookup_insert_eq|].
    match goal with
    | |- dom ?m = _ /\ _ =>
        assert (Hdom : dom m = list_to_set
                  (base_keys ++ flat_map child_keys (range 1 (0 + 1))))
    end.
    { rewrite !dom_insert_L, dom_empty_L. cbn. set_solver. }
    split; [exact Hdom|].
    rewrite <- size_dom, Hdom. apply keys_size. cbn; tauto.
Qed.

Lemma generate_case_children (s : rng) (case : gmap string value) (s' : rng) :
  generate_case s = Ok (case, s') -> children_complete case.
Proof.
  intros E. apply generate_case_ok in E.
  destruct E as (situation & revenu1 & age1 & revenu2 & age2 & n & Had & _ & _
                 & _ & _ & _ & _ & Hchildren & _).
  exists n. split; [apply Had|]. intros i Hi.
  destruct (Hchildren i) as (a & Ha & Hage & Hrest);
    [apply in_range; lia|].
  destruct (Z.leb_spec a 5).
  - destruct Hrest as (f & t & Hf & Ht & Hfrais & Htype).
    exists a, f, t. repeat split; auto.
  - destruct Hrest as [Hfrais Htype].
    exists a, 0, "Subventionnée". repeat split; auto; cbn; try tauto; lia.
Qed.

(** X9. Every generated case has between 0 and 3 children and holds exactly the
    six fixed keys and the three keys of each child: [6 + 3 * nb_enfants]
    entries. *)
Theorem generated_cases_exact_keys (nobs : Z) (s : rng) :
  exists cases s',
    generate_test_cases nobs s = Ok (cases, s') /\
    Forall exact_keys cases.
Proof.
  destruct (generate_test_cases_spec nobs s) as (cases & s' & E & _).
  exists cases, s'. split; [exact E|].
  apply (generated_forall _ generate_case_keys _ _ _ _ E).
Qed.

(** X10. Every child counted by [nb_enfants] has its age, fee and care type in
    the case, each from its candidate list, and a fee above 0 only at an
    age of at most 5. *)
Theorem generated_children_complete (nobs : Z) (s : rng) :
  exists cases s',
    generate_test_cases nobs s = Ok (cases, s') /\
    Forall children_complete cases.
Proof.
  destruct (generate_test_cases_spec nobs s) as (cases & s' & E & _).
  exists cases, s'. split; [exact E|].
  apply (generated_forall _ generate_case_children _ _ _ _ E).
Qed.

End GeneratorExtras.

Lemma generate_test_cases_split_witness :
  exists cases1 s1 cases2 s2,
    @generate_test_cases lcg 2 31 = Ok (cases1, s1) /\
    @generate_test_cases lcg 3 s1 = Ok (cases2, s2) /\
    @generate_test_cases lcg (2 + 3) 31 = Ok (cases1 ++ cases2, s2).
Proof. apply (@generate_test_cases_split lcg 2 3 31); lia. Defined.

Lemma generate_test_cases_none_witness :
  @generate_test_cases lcg (-4) 31 = Ok ([], 31).
Proof. apply (@generate_test_cases_none lcg (-4) 31). lia. Defined.

Lemma generated_cases_exact_keys_witness :
  exists cases s',
    @generate_test_cases lcg 5 31 = Ok (cases, s') /\
    Forall exact_keys cases.
Proof. exact (@generated_cases_exact_keys lcg 5 31). Defined.

Lemma generated_children_complete_witness :
  exists cases s',
    @generate_test_cases lcg 5 31 = Ok (cases, s') /\
    Forall children_complete cases.
Proof. exact (@generated_children_complete lcg 5 31). Defined.

End TestCasesExtras.

(** ** Properties of the browser-driven test run *)

Module RunTestsProofs.

Import TestCases TestCasesProofs GeneratedCases TestCasesExtras RunTests.
Local Open Scope Z_scope.
Local Set Warnings "-clear-no-such-hyp".

Section TesterProofs.

Context `{RandomSource} `{WebDriver}.

Variable strip : string -> string.

Local Notation "x <- m ;; k" := (io_bind m (fun x => k))
  (at level 100, m at next level, right associativity).
Local Notation "m ;;; k" := (io_bind m (fun _ => k))
  (at level 100, right associativity).

(** *** What a piece of driving code sends and returns *)

Lemma sends_ret {A} (a : A) P (Q : A -> Prop) : Q a -> sends (io_ret a) P Q.
Proof.
  intros Ha t. split; [|exact Ha]. exists []. cbn. now rewrite app_nil_r.
Qed.

Lemma sends_fail {A} (e : error) P (Q : A -> Prop) : sends (fail e) P Q.
Proof. intros t. split; [|exact I]. exists []. cbn. now rewrite app_nil_r. Qed.

Lemma sends_bind {A B} (m : io A) (k : A -> io B) P (Q : A -> Prop)
    (R : B -> Prop) :
  sends m P Q -> (forall a, Q a -> sends (k a) P R) -> sends (io_bind m k) P R.
Proof.
  intros Hm Hk t. destruct (Hm t) as [(es & Hes & HP) Hq]. unfold io_bind.
  destruct (m t) as [[a|e] t']; cbn [fst snd] in *.
  - destruct (Hk a Hq t') as [(es' & Hes' & HP') Hr]. split; [|exact Hr].
    exists (es ++ es'). rewrite Hes', Hes, app_assoc. split; [reflexivity|].
    apply Forall_app. now split.
  - split; [|exact I]. now exists es.
Qed.

Lemma sends_weaken {A} (m : io A) P (Q Q' : A -> Prop) :
  sends m P Q -> (forall a, Q a -> Q' a) -> sends m P Q'.
Proof.
  intros Hm HQ t. destruct (Hm t) as [Hes Hq]. split; [exact Hes|].
  destruct (fst (m t)); auto.
Qed.

Lemma sends_emit (e : event) P : P e -> sends (emit e) P (fun _ => True).
Proof.
  intros He t. split; [|exact I]. exists [e]. split; [reflexivity|].
  now constructor.
Qed.

Lemma sends_read {A} (f : page -> A) P : sends (read f) P (fun _ => True).
Proof. intros t. split; [|exact I]. exists []. cbn. now rewrite app_nil_r. Qed.

Lemma sends_find_element (id : string) P :
  sends (find_element id) P (fun _ => True).
Proof.
  intros t. unfold find_element. destruct (present id (current t));
    (split; [|exact I]); exists []; cbn; now rewrite app_nil_r.
Qed.

Lemma sends_for_each {A S} (xs : list A) (body : A -> S -> io S) (acc : S) P :
  (forall x acc', In x xs -> sends (body x acc') P (fun _ => True)) ->
  sends (io_for_each xs body acc) P (fun _ => True).
Proof.
  revert acc. induction xs as [|x xs IH]; intros acc Hbody.
  - now apply sends_ret.
  - cbn [io_for_each]. apply sends_bind with (Q := fun _ => True).
    + apply Hbody. now left.
    + intros acc' _. apply IH. intros y acc'' Hy. apply Hbody. now right.
Qed.

Lemma sends_item (case : gmap string value) (key : string) P :
  sends (item case key) P (fun v => case !! key = Some v).
Proof.
  unfold item. destruct (case !! key) as [v|];
    [now apply sends_ret | apply sends_fail].
Qed.

Lemma sends_greater_than (v : value) (bound : Z) P :
  sends (greater_than v bound) P
        (fun b => exists n, v = VInt n /\ b = (bound <? n)).
Proof.
  destruct v as [s|n]; [apply sends_fail|]. apply sends_ret. now exists n.
Qed.

Lemma sends_plus_one (v : value) P :
  sends (plus_one v) P (fun m => exists n, v = VInt n /\ m = n + 1).
Proof.
  destruct v as [s|n]; [apply sends_fail|]. apply sends_ret. now exists n.
Qed.

Lemma sends_click_first (id : string) (text : value) (texts : list string)
    (index : nat) P :
  on_element P id ->
  sends (click_first strip id text texts index) P (fun _ => True).
Proof.
  intros [Hclick _]. revert index.
  induction texts as [|t texts IH]; intros index; [now apply sends_ret|].
  cbn [click_first]. destruct text as [s|n]; [|apply sends_fail].
  destruct (String.eqb (strip t) (strip s)); [now apply sends_emit | apply IH].
Qed.

Ltac sends_steps :=
  repeat first
    [ apply sends_emit
    | apply sends_read
    | apply sends_find_element
    | apply sends_ret; exact I
    | eapply sends_bind; [|intros ? ?] ].

Lemma sends_select_by_text (id : string) (text : value) P :
  on_element P id -> scripts P ->
  sends (select_by_text strip id text) P (fun _ => True).
Proof.
  intros Hid Hs. unfold select_by_text.
  eapply sends_bind; [apply sends_find_element | intros _ _].
  eapply sends_bind; [apply sends_read | intros texts _].
  eapply sends_bind; [now apply sends_click_first | intros _ _].
  apply sends_emit. apply Hs.
Qed.

Lemma sends_fill_field (id : string) (v : value) P :
  on_element P id -> scripts P ->
  sends (fill_field id v) P (fun _ => True).
Proof.
  intros (_ & Hclear & Hkeys) Hs. unfold fill_field.
  eapply sends_bind; [apply sends_find_element | intros _ _].
  eapply sends_bind; [now apply sends_emit | intros _ _].
  eapply sends_bind; [apply sends_emit, Hkeys | intros _ _].
  apply sends_emit. apply Hs.
Qed.

Lemma sends_extract_results P :
  sends extract_results P (fun _ => True).
Proof.
  unfold extract_results. apply sends_for_each. intros field results _.
  eapply sends_bind; [apply sends_find_element | intros _ _].
  eapply sends_bind; [apply sends_read | intros v _].
  now apply sends_ret.
Qed.

Lemma sends_enter_child (case : gmap string value) (i : Z) P :
  has_child case i -> entered case P ->
  sends (enter_child strip case i) P (fun _ => True).
Proof.
  intros Hi (_ & _ & _ & _ & _ & Hage & Hpaid & Hs). unfold enter_child.
  eapply sends_bind; [apply sends_item | intros age _].
  eapply sends_bind; [apply sends_fill_field; auto | intros _ _].
  eapply sends_bind; [apply sends_greater_than | intros b (f & Hf & ->)].
  destruct (0 <? f) eqn:Hpos; [|now apply sends_ret].
  assert (Hp : paid case i).
  { exists f. split; [|lia]. destruct (case !! frais_key i) as [v|]; cbn in Hf.
    - now subst v.
    - injection Hf as <-. discriminate Hpos. }
  destruct (Hpaid i Hi Hp) as [HF HT].
  eapply sends_bind; [apply sends_item | intros frais _].
  eapply sends_bind; [now apply sends_fill_field | intros _ _].
  eapply sends_bind; [apply sends_item | intros type_garde _].
  now apply sends_select_by_text.
Qed.

Lemma sends_run_case (case : gmap string value) P :
  entered case P -> sends (run_case strip case) P (fun _ => True).
Proof.
  intros Hent.
  pose proof Hent as (HS & HR1 & HA1 & HN & Hsecond & _ & _ & Hs).
  unfold run_case.
  eapply sends_bind; [apply sends_item | intros situation _].
  eapply sends_bind; [now apply sends_select_by_text | intros _ _].
  eapply sends_bind; [apply sends_item | intros revenu1 _].
  eapply sends_bind; [now apply sends_fill_field | intros _ _].
  eapply sends_bind; [apply sends_item | intros age1 _].
  eapply sends_bind; [now apply sends_fill_field | intros _ _].
  eapply sends_bind; [apply sends_item | intros revenu2 Hr2].
  eapply sends_bind; [apply sends_greater_than | intros b (r & -> & ->)].
  eapply sends_bind with (Q := fun _ => True).
  { destruct (0 <? r) eqn:Hpos; [|now apply sends_ret].
    destruct Hsecond as [HR2 HA2]; [exists r; split; [exact Hr2 | lia]|].
    eapply sends_bind; [now apply sends_fill_field | intros _ _].
    eapply sends_bind; [apply sends_item | intros age2 _].
    now apply sends_fill_field. }
  intros _ _.
  eapply sends_bind; [apply sends_item | intros nb Hnb].
  eapply sends_bind with (Q := fun _ => True).
  { unfold nb_enfants_text.
    eapply sends_bind; [apply sends_greater_than | intros b _].
    destruct b; [|now apply sends_ret].
    eapply sends_bind; [apply sends_greater_than | intros b _].
    now apply sends_ret. }
  intros text _.
  eapply sends_bind; [now apply sends_select_by_text | intros _ _].
  eapply sends_bind; [apply sends_plus_one | intros upper (n & -> & ->)].
  eapply sends_bind with (Q := fun _ => True).
  { apply sends_for_each. intros i _ Hi. apply in_range in Hi.
    apply sends_enter_child; [|exact Hent]. exists n. split; [exact Hnb|lia]. }
  intros _ _.
  eapply sends_bind; [apply sends_extract_results | intros results _].
  now apply sends_ret.
Qed.

(** *** The events of a run *)

Lemma sends_cases (cases : list (gmap string value))
    (acc : list (gmap string entry)) P :
  (forall case, In case cases -> entered case P) ->
  sends (io_for_each cases
           (fun case results =>
              merged <- run_case strip case ;; io_ret (results ++ [merged]))
           acc) P (fun _ => True).
Proof.
  intros Hent. apply sends_for_each. intros case results Hin.
  eapply sends_bind; [apply sends_run_case; auto | intros merged _].
  now apply sends_ret.
Qed.

Lemma entered_interaction (case : gmap string value) :
  entered case interaction.
Proof. unfold entered, on_element, scripts. cbn. tauto. Qed.

(** X11. [run_tests] opens the browser once, first, and closes it once, last,
    whether the loop over the cases finished or raised; in between it only
    clicks, clears, types and runs scripts. *)
Theorem run_tests_opens_and_closes (url : string) (s : rng) :
  exists result events,
    run_tests strip url s = (result, Get url :: events ++ [Quit]) /\
    Forall interaction events.
Proof.
  unfold run_tests.
  destruct (generate_test_cases_spec 5 s) as (cases & s' & -> & _).
  destruct (sends_cases cases [] interaction
              (fun case _ => entered_interaction case)
              (TaxCalculatorTest url)) as [(es & Hlog & Hes) _].
  destruct (io_for_each cases _ [] (TaxCalculatorTest url)) as [result t].
  cbn [snd] in Hlog. cbn [close emit log]. rewrite Hlog.
  exists result, es. split; [reflexivity | exact Hes].
Qed.

Lemma acts_on_unique (a b : string) (e : event) :
  acts_on a e -> acts_on b e -> a = b.
Proof. destruct e; cbn; intros; congruence || contradiction. Qed.

Lemma on_element_intro (P : event -> Prop) (id : string) :
  (forall e, acts_on id e -> P e) -> on_element P id.
Proof. intros HP. repeat split; intros; apply HP; reflexivity. Qed.

(** An element other than the ones a property is about. *)
Ltac other_element :=
  apply on_element_intro;
  let e := fresh "e" in
  let He := fresh "He" in
  let Hx := fresh "Hx" in
  let E := fresh "E" in
  intros e He [Hx | Hx];
  pose proof (acts_on_unique _ _ _ He Hx) as E;
  unfold AgeEnfant, Frais, type_garde_key in E; cbn in E; discriminate E.

Ltac no_script :=
  let id := fresh "id" in
  let Hx := fresh "Hx" in
  intros id [Hx | Hx]; cbn in Hx; contradiction.

Lemma events_second_adult (case : gmap string value) (t : tester) :
  exists events,
    log (snd (run_case strip case t)) = log t ++ events /\
    forall e, In e events ->
      acts_on "Revenu2" e \/ acts_on "AgeAdulte2" e ->
      second_income case.
Proof.
  set (P := fun e => acts_on "Revenu2" e \/ acts_on "AgeAdulte2" e ->
                     second_income case).
  assert (Hent : entered case P).
  { unfold entered, P. do 4 (split; [other_element|]).
    split; [intros Hsec; split; apply on_element_intro; auto|].
    split; [intros i _; other_element|].
    split; [intros i _ _; split; other_element | no_script]. }
  destruct (sends_run_case case P Hent t) as [(es & Hlog & Hes) _].
  exists es. split; [exact Hlog|]. intros e He.
  rewrite List.Forall_forall in Hes. now apply Hes.
Qed.

Lemma Frais_inj (i j : Z) : Frais i = Frais j -> i = j.
Proof.
  unfold Frais. intros E. apply (inj (String.app "Frais")) in E.
  now apply (inj pretty).
Qed.

Lemma type_garde_key_inj (i j : Z) : type_garde_key i = type_garde_key j -> i = j.
Proof.
  unfold type_garde_key. intros E. apply (inj (String.app "type_garde")) in E.
  now apply (inj pretty).
Qed.

Lemma events_childcare (case : gmap string value) (i : Z) (t : tester) :
  exists events,
    log (snd (run_case strip case t)) = log t ++ events /\
    forall e, In e events ->
      acts_on (Frais i) e \/ acts_on (type_garde_key i) e ->
      paid case i.
Proof.
  set (P := fun e => acts_on (Frais i) e \/ acts_on (type_garde_key i) e ->
                     paid case i).
  assert (Hown : forall j, paid case j ->
            on_element P (Frais j) /\ on_element P (type_garde_key j)).
  { intros j Hj. split; apply on_element_intro; intros e He [Hx | Hx];
      pose proof (acts_on_unique _ _ _ He Hx) as E;
      first [ apply Frais_inj in E; now subst
            | apply type_garde_key_inj in E; now subst
            | unfold Frais, type_garde_key in E; cbn in E; discriminate E ]. }
  assert (Hent : entered case P).
  { unfold entered. do 4 (split; [other_element|]).
    split; [intros _; split; other_element|].
    split; [intros j _; other_element|].
    split; [intros j _; apply Hown | no_script]. }
  destruct (sends_run_case case P Hent t) as [(es & Hlog & Hes) _].
  exists es. split; [exact Hlog|]. intros e He.
  rewrite List.Forall_forall in Hes. now apply Hes.
Qed.

(** X12. Whatever [run_tests] does on the elements [Revenu2] and [AgeAdulte2]
    for a case, it does because [revenu2] is a positive number: a second
    adult with income 0 is never entered, not even the age. *)
Theorem second_adult_needs_income (case : gmap string value) (t : tester) :
  exists events,
    log (snd (run_case strip case t)) = log t ++ events /\
    forall e, In e events ->
      acts_on "Revenu2" e \/ acts_on "AgeAdulte2" e ->
      second_income case.
Proof. exact (events_second_adult case t). Qed.

(** X13. Whatever [run_tests] does on the elements [Frais{i}] and
    [type_garde{i}] for a case, it does because [frais{i}] is a positive
    number: a fee of 0, or no fee at all, leaves both untouched. *)
Theorem childcare_needs_fee (case : gmap string value) (i : Z) (t : tester) :
  exists events,
    log (snd (run_case strip case t)) = log t ++ events /\
    forall e, In e events ->
      acts_on (Frais i) e \/ acts_on (type_garde_key i) e ->
      paid case i.
Proof. exact (events_childcare case i t). Qed.

(** X14. For the cases the generator makes: a child older than 5 never has a fee
    or a care type entered, and only a couple has a second adult entered. *)
Theorem generated_case_entries (s s' : rng) (case : gmap string value)
    (t : tester) :
  generate_case s = Ok (case, s') ->
  exists events,
    log (snd (run_case strip case t)) = log t ++ events /\
    forall e, In e events ->
      (forall i a, case !! age_enfant_key i = Some (VInt a) -> 5 < a ->
         ~ acts_on (Frais i) e /\ ~ acts_on (type_garde_key i) e) /\
      (acts_on "Revenu2" e \/ acts_on "AgeAdulte2" e ->
         exists situation,
           case !! "situation" = Some (VStr situation) /\
           couple_situation situation).
Proof.
  intros Hgen. apply generate_case_ok in Hgen.
  destruct (events_second_adult case t) as (es & Hlog & Hsecond).
  exists es. split; [exact Hlog|]. intros e He. split.
  - intros i a Hage Ha.
    destruct (events_childcare case i t) as (es' & Hlog' & Hpaid).
    rewrite Hlog in Hlog'. apply app_inv_head in Hlog'. subst es'.
    destruct (case_ok_invariants case Hgen) as [_ Hinv].
    destruct (Hinv i a Hage) as [_ Holder].
    destruct (Holder Ha) as [Hfrais _].
    assert (Hnot : ~ paid case i).
    { intros (f & Hf & Hpos). rewrite Hfrais in Hf. injection Hf as <-. lia. }
    split; intros Hact; apply Hnot, (Hpaid e He); tauto.
  - intros Hact. destruct (Hsecond e He Hact) as (r & Hr & Hpos).
    destruct (case_ok_adults case Hgen)
      as (situation & revenu1 & age1 & revenu2 & age2 & n & Had & _ & Hnc & _).
    destruct Had as (Hs & _ & _ & Hr2 & _).
    exists situation. split; [exact Hs|].
    destruct (decide (couple_situation situation)) as [Hc | Hc]; [exact Hc|].
    destruct (Hnc Hc) as [-> _]. rewrite Hr2 in Hr. injection Hr as <-. lia.
Qed.

(** *** Selecting an option *)

Lemma click_first_run (id s : string) (texts : list string) (k : nat)
    (t : tester) :
  click_first strip id (VStr s) texts k t =
  (Done tt,
   perform match list_find (fun o => strip o = strip s) texts with
           | Some (i, _) => [Click id (k + i)]
           | None => []
           end t).
Proof.
  revert k. induction texts as [|o texts IH]; intros k; [reflexivity|].
  cbn [click_first list_find]. destruct (String.eqb_spec (strip o) (strip s)).
  - rewrite decide_True by assumption. cbn. now rewrite Nat.add_0_r.
  - rewrite decide_False by assumption. rewrite IH.
    destruct (list_find _ texts) as [[i x]|]; cbn; [|reflexivity].
    now rewrite Nat.add_succ_r.
Qed.

Lemma perform_app (es es' : list event) (t : tester) :
  perform (es ++ es') t = perform es' (perform es t).
Proof. apply fold_left_app. Qed.

Lemma select_by_text_run_eq (id s : string) (t : tester) :
  select_by_text strip id (VStr s) t =
  if present id (current t) then
    (Done tt,
     perform (first_match_click strip id s (option_texts id (current t))
              ++ [ExecuteScript (recalc_onclick id)]) t)
  else (Failed (NoSuchElementException id), t).
Proof.
  unfold select_by_text, io_bind, find_element, read.
  destruct (present id (current t)); [|reflexivity].
  rewrite click_first_run, perform_app. reflexivity.
Qed.

(** X15. [select_by_text] with a text: when the element exists, it clicks at most
    one option, the first whose stripped text equals the stripped target,
    and then runs [recalc_onclick] for the element, whether an option
    matched or not; when the element is missing it raises before doing
    anything. *)
Theorem select_by_text_first_match (id s : string) (t : tester) :
  select_by_text strip id (VStr s) t =
  if present id (current t) then
    (Done tt,
     perform (first_match_click strip id s (option_texts id (current t))
              ++ [ExecuteScript (recalc_onclick id)]) t)
  else (Failed (NoSuchElementException id), t).
Proof. exact (select_by_text_run_eq id s t). Qed.

(** *** A page that has every element *)

Lemma runs_ret {A} (a : A) (Q : A -> Prop) : Q a -> runs (io_ret a) Q.
Proof. intros Ha t. now exists a. Qed.

Lemma runs_bind {A B} (m : io A) (k : A -> io B) (Q : A -> Prop)
    (R : B -> Prop) :
  runs m Q -> (forall a, Q a -> runs (k a) R) -> runs (io_bind m k) R.
Proof.
  intros Hm Hk t. destruct (Hm t) as (a & E & Ha). unfold io_bind.
  destruct (m t) as [r t']. cbn [fst] in E. subst r. now apply Hk.
Qed.

Lemma runs_weaken {A} (m : io A) (Q Q' : A -> Prop) :
  runs m Q -> (forall a, Q a -> Q' a) -> runs m Q'.
Proof. intros Hm HQ t. destruct (Hm t) as (a & E & Ha). exists a. auto. Qed.

Lemma runs_emit (e : event) : runs (emit e) (fun _ => True).
Proof. intros t. now exists tt. Qed.

Lemma runs_read {A} (f : page -> A) : runs (read f) (fun _ => True).
Proof. intros t. now exists (f (current t)). Qed.

Lemma runs_item (case : gmap string value) (key : string) (v : value) :
  case !! key = Some v -> runs (item case key) (eq v).
Proof. intros E t. unfold item. rewrite E. now exists v. Qed.

Lemma runs_for_each {A} (xs : list A) (body : A -> unit -> io unit) :
  (forall x, In x xs -> runs (body x tt) (fun _ => True)) ->
  runs (io_for_each xs body tt) (fun _ => True).
Proof.
  induction xs as [|x xs IH]; intros Hbody; [now apply runs_ret|].
  cbn [io_for_each]. eapply runs_bind; [apply Hbody; now left|].
  intros [] _. apply IH. intros y Hy. apply Hbody. now right.
Qed.

Section CompletePage.

Hypothesis all_present : forall id p, present id p = true.

Lemma runs_find_element (id : string) :
  runs (find_element id) (fun _ => True).
Proof. intros t. unfold find_element. rewrite all_present. now exists tt. Qed.

Lemma runs_select_by_text (id s : string) :
  runs (select_by_text strip id (VStr s)) (fun _ => True).
Proof.
  intros t. rewrite select_by_text_run_eq, all_present. now exists tt.
Qed.

Lemma runs_fill_field (id : string) (v : value) :
  runs (fill_field id v) (fun _ => True).
Proof.
  unfold fill_field.
  eapply runs_bind; [apply runs_find_element | intros _ _].
  eapply runs_bind; [apply runs_emit | intros _ _].
  eapply runs_bind; [apply runs_emit | intros _ _].
  apply runs_emit.
Qed.

Lemma runs_extract_from (fields : list string)
    (acc : gmap string (option string)) :
  runs (io_for_each fields
          (fun field results =>
             find_element field ;;;
             v <- read (value_attribute field) ;;
             io_ret (<[field := v]> results))
          acc)
       (fun results => dom results = dom acc ∪ list_to_set fields).
Proof.
  revert acc. induction fields as [|f fields IH]; intros acc.
  - apply runs_ret. cbn. set_solver.
  - cbn [io_for_each].
    eapply runs_bind with (Q := fun r => dom r = {[f]} ∪ dom acc).
    + eapply runs_bind; [apply runs_find_element | intros _ _].
      eapply runs_bind; [apply runs_read | intros v _].
      apply runs_ret. apply dom_insert_L.
    + intros acc' Hacc. eapply runs_weaken; [apply IH|].
      intros results ->. rewrite Hacc. cbn. set_solver.
Qed.

Lemma runs_extract_results :
  runs extract_results (fun results => dom results = list_to_set result_fields).
Proof.
  eapply runs_weaken; [apply runs_extract_from|].
  intros results ->. rewrite dom_empty_L. set_solver.
Qed.

Lemma runs_enter_child (case : gmap string value) (i : Z) :
  child_ok case i -> runs (enter_child strip case i) (fun _ => True).
Proof.
  intros (a & _ & Hage & Hrest). unfold enter_child.
  eapply runs_bind; [apply runs_item; eassumption | intros _ <-].
  eapply runs_bind; [apply runs_fill_field | intros _ _].
  assert (Hf : exists f t, case !! frais_key i = Some (VInt f) /\
                           case !! type_garde_key i = Some (VStr t)).
  { destruct (a <=? 5).
    - destruct Hrest as (f & t & _ & _ & Hf & Ht). now exists f, t.
    - destruct Hrest as [Hf Ht]. now exists 0, "Subventionnée". }
  destruct Hf as (f & t & Hf & Ht). rewrite Hf.
  eapply runs_bind;
    [apply (runs_ret (0 <? f) (eq (0 <? f))); reflexivity | intros b <-].
  destruct (0 <? f); [|now apply runs_ret].
  eapply runs_bind; [apply runs_item; eassumption | intros _ <-].
  eapply runs_bind; [apply runs_fill_field | intros _ _].
  eapply runs_bind; [apply runs_item; eassumption | intros _ <-].
  apply runs_select_by_text.
Qed.

Lemma runs_run_case (case : gmap string value) :
  case_ok case ->
  runs (run_case strip case)
       (fun record => exists results,
          dom results = list_to_set result_fields /\
          record = update case results).
Proof.
  intros (situation & revenu1 & age1 & revenu2 & age2 & n & Had & _ & _ & _
          & _ & _ & _ & Hchildren & _).
  destruct Had as (Hs & Hr1 & Ha1 & Hr2 & Ha2 & Hn). unfold run_case.
  eapply runs_bind; [apply runs_item; eassumption | intros _ <-].
  eapply runs_bind; [apply runs_select_by_text | intros _ _].
  eapply runs_bind; [apply runs_item; eassumption | intros _ <-].
  eapply runs_bind; [apply runs_fill_field | intros _ _].
  eapply runs_bind; [apply runs_item; eassumption | intros _ <-].
  eapply runs_bind; [apply runs_fill_field | intros _ _].
  eapply runs_bind; [apply runs_item; eassumption | intros _ <-].
  eapply runs_bind;
    [apply (runs_ret (0 <? revenu2) (eq (0 <? revenu2))); reflexivity
    | intros b <-].
  eapply runs_bind with (Q := fun _ => True).
  { destruct (0 <? revenu2); [|now apply runs_ret].
    eapply runs_bind; [apply runs_fill_field | intros _ _].
    eapply runs_bind; [apply runs_item; eassumption | intros _ <-].
    apply runs_fill_field. }
  intros _ _.
  eapply runs_bind; [apply runs_item; eassumption | intros _ <-].
  eapply runs_bind with (Q := fun _ => True).
  { unfold nb_enfants_text.
    eapply runs_bind;
      [apply (runs_ret (0 <? n) (eq (0 <? n))); reflexivity | intros b <-].
    destruct (0 <? n); [|now apply runs_ret].
    eapply runs_bind;
      [apply (runs_ret (1 <? n) (eq (1 <? n))); reflexivity | intros b <-].
    now apply runs_ret. }
  intros text _.
  eapply runs_bind; [apply runs_select_by_text | intros _ _].
  eapply runs_bind;
    [apply (runs_ret (n + 1) (eq (n + 1))); reflexivity | intros _ <-].
  eapply runs_bind with (Q := fun _ => True).
  { apply runs_for_each. intros i Hi. apply runs_enter_child. auto. }
  intros _ _.
  eapply runs_bind; [apply runs_extract_results | intros results Hdom].
  apply runs_ret. now exists results.
Qed.

Lemma update_merged (case : gmap string value)
    (results : gmap string (option string)) :
  dom results = list_to_set result_fields ->
  (forall f, In f result_fields -> case !! f = None) ->
  merged case (update case results).
Proof.
  intros Hdom Hfree. unfold merged, update. split; [|split].
  - intros k v Hk.
    assert (Hnone : results !! k = None).
    { apply not_elem_of_dom. rewrite Hdom, elem_of_list_to_set, list_elem_of_In.
      intros Hin. rewrite (Hfree k Hin) in Hk. discriminate. }
    rewrite lookup_union_r by (now rewrite lookup_fmap, Hnone).
    now rewrite lookup_fmap, Hk.
  - intros f Hf.
    assert (Hin : f ∈ dom results)
      by (now rewrite Hdom, elem_of_list_to_set, list_elem_of_In).
    apply elem_of_dom in Hin. destruct Hin as [o Ho]. exists o.
    apply lookup_union_Some_l. now rewrite lookup_fmap, Ho.
  - now rewrite dom_union_L, !dom_fmap_L, Hdom, (comm_L (∪)).
Qed.

Lemma generated_no_result_key (case : gmap string value) :
  exact_keys case -> forall f, In f result_fields -> case !! f = None.
Proof.
  intros (n & _ & _ & Hdom & _) f Hf. apply not_elem_of_dom.
  rewrite Hdom, elem_of_list_to_set, list_elem_of_In, in_app_iff, in_flat_map.
  unfold result_fields, base_keys in *. cbn [In] in *.
  intros [Hbase | (i & _ & Hchild)].
  - repeat (destruct Hf as [<- | Hf]; [intuition discriminate|]). exact Hf.
  - unfold child_keys, age_enfant_key, frais_key, type_garde_key in Hchild.
    cbn [In] in Hchild.
    repeat (destruct Hf as [<- | Hf];
            [repeat (destruct Hchild as [E | Hchild];
                     [cbn in E; discriminate E|]); exact Hchild|]).
    exact Hf.
Qed.

Lemma runs_cases (cases : list (gmap string value))
    (acc : list (gmap string entry)) (t : tester) :
  Forall (fun case => case_ok case /\ exact_keys case) cases ->
  exists new t',
    io_for_each cases
      (fun case results =>
         merged <- run_case strip case ;; io_ret (results ++ [merged]))
      acc t = (Done (acc ++ new), t') /\
    Forall2 merged cases new.
Proof.
  intros Hcases. revert acc t.
  induction Hcases as [|case cases [Hok Hkeys] _ IH]; intros acc t.
  - exists [], t. cbn. rewrite app_nil_r. split; [reflexivity | constructor].
  - cbn [io_for_each]. unfold io_bind at 1 2.
    destruct (runs_run_case case Hok t) as (record & E & results & Hdom & ->).
    destruct (run_case strip case t) as [r t1]. cbn [fst] in E. subst r.
    cbn [io_ret].
    destruct (IH (acc ++ [update case results]) t1) as (new & t' & -> & Hall).
    exists (update case results :: new), t'. rewrite <- app_assoc.
    split; [reflexivity|]. constructor; [|exact Hall].
    apply update_merged; [exact Hdom|]. now apply generated_no_result_key.
Qed.


End CompletePage.

End TesterProofs.

(** *** Sample runs *)

Lemma run_tests_opens_and_closes_witness :
  exists result events,
    @run_tests lcg blank_page (fun s => s) "file:///index.html" 31
      = (result, Get "file:///index.html" :: events ++ [Quit]) /\
    Forall interaction events.
Proof.
  exact (@run_tests_opens_and_closes lcg blank_page (fun s => s)
           "file:///index.html" 31).
Defined.

Lemma second_adult_needs_income_witness :
  exists events,
    log (snd (run_case (fun s => s) sample_case sample_tester))
      = log sample_tester ++ events /\
    forall e, In e events ->
      acts_on "Revenu2" e \/ acts_on "AgeAdulte2" e ->
      second_income sample_case.
Proof.
  exact (@second_adult_needs_income blank_page (fun s => s)
           sample_case sample_tester).
Defined.

Lemma childcare_needs_fee_witness :
  exists events,
    log (snd (run_case (fun s => s) sample_case sample_tester))
      = log sample_tester ++ events /\
    forall e, In e events ->
      acts_on (Frais 1) e \/ acts_on (type_garde_key 1) e ->
      paid sample_case 1.
Proof.
  exact (@childcare_needs_fee blank_page (fun s => s)
           sample_case 1 sample_tester).
Defined.

Lemma generated_case_entries_witness :
  exists case s',
    @generate_case lcg 31 = Ok (case, s') /\
    exists events,
      log (snd (run_case (fun s => s) case sample_tester))
        = log sample_tester ++ events /\
      forall e, In e events ->
        (forall i a, case !! age_enfant_key i = Some (VInt a) -> 5 < a ->
           ~ acts_on (Frais i) e /\ ~ acts_on (type_garde_key i) e) /\
        (acts_on "Revenu2" e \/ acts_on "AgeAdulte2" e ->
           exists situation,
             case !! "situation" = Some (VStr situation) /\
             couple_situation situation).
Proof.
  destruct (@generate_case_spec lcg 31) as (case & s' & E & _).
  exists case, s'. split; [exact E|].
  exact (@generated_case_entries lcg blank_page (fun s => s)
           31 s' case sample_tester E).
Defined.


End RunTestsProofs.

(** ** Properties of the tooltip position and of the display of amounts *)

Module TooltipProofs.

Import Tooltip.
Local Open Scope Q_scope.

Lemma gt_true (a b : Q) : gt a b = true <-> b < a.
Proof.
  unfold gt. rewrite negb_true_iff, <- not_true_iff_false, Qle_bool_iff.
  split; [apply Qnot_le_lt | apply Qlt_not_le].
Qed.

Lemma gt_false (a b : Q) : gt a b = false <-> a <= b.
Proof. unfold gt. rewrite negb_false_iff. apply Qle_bool_iff. Qed.

Lemma ge_true (a b : Q) : ge a b = true <-> b <= a.
Proof. apply Qle_bool_iff. Qed.

Lemma ge_false (a b : Q) : ge a b = false <-> a < b.
Proof.
  unfold ge. rewrite <- not_true_iff_false, Qle_bool_iff.
  split; [apply Qnot_le_lt | apply Qlt_not_le].
Qed.

Ltac branches :=
  unfold initPositionTooltip;
  repeat match goal with
    | |- context [gt ?a ?b] =>
        let E := fresh "E" in
        destruct (gt a b) eqn:E; [apply gt_true in E | apply gt_false in E]
    | |- context [ge ?a ?b] =>
        let E := fresh "E" in
        destruct (ge a b) eqn:E; [apply ge_true in E | apply ge_false in E]
    end.

(** X17. Whatever the three measures are, the tooltip never starts less than 10
    pixels to the right of the origin the button is measured from: the
    button offset plus the computed [left] is exactly 10, or at least 40. *)
Theorem tooltip_starts_after_10
    (gaucheBouton largeurTooltip clientWidth : Q) :
  let start :=
    gaucheBouton + initPositionTooltip gaucheBouton largeurTooltip clientWidth in
  start == 10 \/ 40 <= start.
Proof. cbv zeta. branches; (left; lra) || (right; lra). Qed.

End TooltipProofs.

Module DisplayProofs.

Import Display.

Lemma chars_app (s s' : string) : chars (s +:+ s') = chars s ++ chars s'.
Proof.
  induction s as [|c s IH]; [reflexivity|].
  change (c :: chars (s +:+ s') = c :: (chars s ++ chars s')). now f_equal.
Qed.

Lemma replace_hyphens_chars (s : string) :
  ~ In "-"%char (chars (replace_hyphens s)).
Proof.
  induction s as [|c s IH]; cbn [replace_hyphens chars]; [tauto|].
  destruct (Ascii.eqb_spec c "-") as [-> | Hc].
  - rewrite chars_app, in_app_iff. intros [Hin | Hin]; [|tauto].
    cbn in Hin. intuition discriminate.
  - cbn [chars In]. intros [E | Hin]; [congruence | tauto].
Qed.

Lemma replace_hyphens_same (s : string) :
  ~ In "-"%char (chars s) -> replace_hyphens s = s.
Proof.
  induction s as [|c s IH]; cbn [replace_hyphens chars In]; [reflexivity|].
  intros Hno. destruct (Ascii.eqb_spec c "-") as [-> | Hc]; [tauto|].
  rewrite IH; tauto.
Qed.



End DisplayProofs.
